(** * nlg.structures: constituent trees, their traversal, substitution and
      rendering

    A shallow embedding of [src/nlg/structures.py].  Python objects become
    values of inductive types, in-place mutation becomes explicit state
    passing (a method returns the mutated receiver next to its result), and a
    raised exception becomes the [Raise] branch of [result]. *)

From Stdlib Require Import ZArith String Ascii Permutation.
From stdpp Require Import base option list strings pretty gmap.

Local Open Scope string_scope.
Local Open Scope list_scope.

(** ** Exceptions and the error monad *)

Inductive exn : Type :=
| AttributeError
| NameError
| IndexError
| KeyError
| ValueError
| TypeError.

Inductive result (A : Type) : Type :=
| Ok (a : A)
| Raise (e : exn).

Arguments Ok {A} a.
Arguments Raise {A} e.

#[global] Instance result_ret : MRet result := λ A a, Ok a.

#[global] Instance result_bind : MBind result := λ A B k m,
  match m with
  | Ok a => k a
  | Raise e => Raise e
  end.

(** ** Identifiers and the feature store *)

(** [Element.id] is the integer [0] unless a caller assigns something else;
    [PlaceHolder.id] is whatever key the template author chose. *)
Inductive pyid : Type :=
| IdNone
| IdInt (n : Z)
| IdStr (s : string).

#[global] Instance pyid_eq_dec : EqDecision pyid.
Proof. solve_decision. Defined.

(** The attributes set by [Element.__init__], apart from [_visitor_name],
    which every concrete class fixes (see [visitor_name]). *)
Record Base : Type := mkBase {
  id : pyid;
  _features : gmap string string
}.

#[global] Instance Base_eq_dec : EqDecision Base.
Proof. solve_decision. Defined.

Definition add_feature (feature value : string) (fs : gmap string string)
  : gmap string string :=
  <[feature := value]> fs.

Definition has_feature (feature : string) (fs : gmap string string) : bool :=
  bool_decide (is_Some (fs !! feature)).

Definition get_feature (feature : string) (fs : gmap string string)
  : result string :=
  match fs !! feature with
  | Some v => Ok v
  | None => Raise KeyError
  end.

Definition feature (feat : string) (fs : gmap string string) : option string :=
  if has_feature feat fs then fs !! feat else None.

(** [del_feature(self, feat, val=None)].  The comparison on the [elif] line
    is between the argument, known to be [None] there, and the stored
    string. *)
Definition del_feature (feat : string) (val : option string)
    (fs : gmap string string) : gmap string string :=
  match fs !! feat with
  | Some stored =>
      if bool_decide (val ≠ None) then delete feat fs
      else if bool_decide (val = Some stored) then delete feat fs
      else fs
  | None => fs
  end.

(** ** Elements *)

Inductive PhraseKind : Type := VP | PP | AdvP | AdjP.

#[global] Instance PhraseKind_eq_dec : EqDecision PhraseKind.
Proof. solve_decision. Defined.

(** The attributes set by [Phrase.__init__], apart from [type]. *)
Record Slots (E : Type) : Type := mkSlots {
  discourse_fn : option string;
  front_modifier : list E;
  pre_modifier : list E;
  head : option E;
  complement : list E;
  post_modifier : list E
}.

Arguments mkSlots {E}.
Arguments discourse_fn {E}.
Arguments front_modifier {E}.
Arguments pre_modifier {E}.
Arguments head {E}.
Arguments complement {E}.
Arguments post_modifier {E}.

#[local] Set Warnings "-register-all".

Inductive Element : Type :=
| String (b : Base) (val : string)
| Word (b : Base) (word pos : option string)
| PlaceHolder (b : Base) (value : option Element)
| Clause (b : Base) (p : Slots Element) (subj vp : option Element)
| NP (b : Base) (p : Slots Element) (spec : option Element)
| Phrase (k : PhraseKind) (b : Base) (p : Slots Element)
| CC (b : Base) (coords : list Element).

Definition base (e : Element) : Base :=
  match e with
  | String b _ | Word b _ _ | PlaceHolder b _ | Clause b _ _ _
  | NP b _ _ | Phrase _ b _ | CC b _ => b
  end.

(** The [vname] each constructor hands to [Element.__init__]. *)
Definition visitor_name (e : Element) : string :=
  match e with
  | String _ _ => "visit_string"
  | Word _ _ _ => "visit_word"
  | PlaceHolder _ _ => "visit_placeholder"
  | Clause _ _ _ _ => "visit_clause"
  | NP _ _ _ => "visit_np"
  | Phrase VP _ _ => "visit_vp"
  | Phrase _ _ _ => "visit_pp"
  | CC _ _ => "visit_cc"
  end.

(** The [type] each phrase constructor hands to [Phrase.__init__]. *)
Definition phrase_type (k : PhraseKind) : string :=
  match k with
  | VP => "VERB_PHRASE"
  | PP => "PREPOSITIONAL_PHRASE"
  | AdvP => "ADVERB_PHRASE"
  | AdjP => "ADJECTIVE_PHRASE"
  end.

Definition empty_base : Base := mkBase (IdInt 0) ∅.

Definition empty_slots : Slots Element := mkSlots None [] [] None [] [].

Definition is_leaf (e : Element) : bool :=
  match e with
  | String _ _ | Word _ _ _ | PlaceHolder _ _ => true
  | _ => false
  end.

Definition is_placeholder (e : Element) : bool :=
  match e with
  | PlaceHolder _ _ => true
  | _ => false
  end.

(** *** Induction over the nested occurrences *)

Definition OptAll {A : Type} (P : A → Prop) (o : option A) : Prop :=
  match o with
  | Some x => P x
  | None => True
  end.

Definition SlotsAll (P : Element → Prop) (p : Slots Element) : Prop :=
  Forall P (front_modifier p) ∧ Forall P (pre_modifier p) ∧
  OptAll P (head p) ∧ Forall P (complement p) ∧ Forall P (post_modifier p).

Section Element_induction.
Variable P : Element → Prop.
Hypothesis HString : ∀ b val, P (String b val).
Hypothesis HWord : ∀ b word pos, P (Word b word pos).
Hypothesis HPlaceHolder : ∀ b value, OptAll P value → P (PlaceHolder b value).
Hypothesis HClause : ∀ b p subj vp,
  SlotsAll P p → OptAll P subj → OptAll P vp → P (Clause b p subj vp).
Hypothesis HNP : ∀ b p spec, SlotsAll P p → OptAll P spec → P (NP b p spec).
Hypothesis HPhrase : ∀ k b p, SlotsAll P p → P (Phrase k b p).
Hypothesis HCC : ∀ b coords, Forall P coords → P (CC b coords).

Fixpoint Element_nested_ind (e : Element) : P e :=
  let all := fix all (l : list Element) : Forall P l :=
    match l with
    | [] => List.Forall_nil P
    | x :: l' => List.Forall_cons P x l' (Element_nested_ind x) (all l')
    end in
  let opt := fun (o : option Element) =>
    match o return OptAll P o with
    | Some x => Element_nested_ind x
    | None => I
    end in
  let slots := fun (p : Slots Element) =>
    match p return SlotsAll P p with
    | mkSlots _ fm pm h c po =>
        conj (all fm) (conj (all pm) (conj (opt h) (conj (all c) (all po))))
    end in
  match e with
  | String b val => HString b val
  | Word b word pos => HWord b word pos
  | PlaceHolder b value => HPlaceHolder b value (opt value)
  | Clause b p subj vp => HClause b p subj vp (slots p) (opt subj) (opt vp)
  | NP b p spec => HNP b p spec (slots p) (opt spec)
  | Phrase k b p => HPhrase k b p (slots p)
  | CC b coords => HCC b coords (all coords)
  end.
End Element_induction.

(** ** Equality ([__eq__])

    Each class compares its own attributes and then defers to its base
    class; [isinstance] is the test on the right operand's constructor. *)

Section eq_helpers.
Context {A : Type} (eqb : A → A → bool).

Fixpoint list_eqb (l1 l2 : list A) : bool :=
  match l1, l2 with
  | [], [] => true
  | x :: l1', y :: l2' => eqb x y && list_eqb l1' l2'
  | _, _ => false
  end.

Definition opt_eqb (o1 o2 : option A) : bool :=
  match o1, o2 with
  | None, None => true
  | Some x, Some y => eqb x y
  | _, _ => false
  end.
End eq_helpers.

(** [Element.__eq__]: [id], [_visitor_name], [_features]. *)
Definition Element_eq (self other : Element) : bool :=
  bool_decide (id (base self) = id (base other)) &&
  String.eqb (visitor_name self) (visitor_name other) &&
  bool_decide (_features (base self) = _features (base other)).

(** What [isinstance(other, Phrase)] lets [Phrase.__eq__] read. *)
Definition as_phrase (e : Element) : option (string * Slots Element) :=
  match e with
  | Clause _ p _ _ => Some ("CLAUSE", p)
  | NP _ p _ => Some ("NOUN_PHRASE", p)
  | Phrase k _ p => Some (phrase_type k, p)
  | _ => None
  end.

(** [Phrase.__eq__], the receiver's [type] and slots passed in. *)
Definition Phrase_eq (eqb : Element → Element → bool)
    (type : string) (p : Slots Element) (self other : Element) : bool :=
  match as_phrase other with
  | None => false
  | Some (type', p') =>
      String.eqb type type' &&
      bool_decide (discourse_fn p = discourse_fn p') &&
      list_eqb eqb (front_modifier p) (front_modifier p') &&
      list_eqb eqb (pre_modifier p) (pre_modifier p') &&
      opt_eqb eqb (head p) (head p') &&
      list_eqb eqb (complement p) (complement p') &&
      list_eqb eqb (post_modifier p) (post_modifier p') &&
      Element_eq self other
  end.

Fixpoint elem_eqb (self other : Element) {struct self} : bool :=
  match self with
  | String _ val =>
      match other with
      | String _ val' => String.eqb val val' && Element_eq self other
      | _ => false
      end
  | Word _ word pos =>
      match other with
      | Word _ word' pos' =>
          bool_decide (word = word') && bool_decide (pos = pos') &&
          Element_eq self other
      | _ => false
      end
  | PlaceHolder b value =>
      match other with
      | PlaceHolder b' value' =>
          bool_decide (id b = id b') && opt_eqb elem_eqb value value' &&
          Element_eq self other
      | _ => false
      end
  | Clause _ p subj vp =>
      match other with
      | Clause _ _ subj' vp' =>
          opt_eqb elem_eqb subj subj' && opt_eqb elem_eqb vp vp' &&
          Phrase_eq elem_eqb "CLAUSE" p self other
      | _ => false
      end
  | NP _ p spec =>
      match other with
      | NP _ p' spec' =>
          opt_eqb elem_eqb spec spec' && opt_eqb elem_eqb (head p) (head p') &&
          Phrase_eq elem_eqb "NOUN_PHRASE" p self other
      | _ => false
      end
  | Phrase k _ p => Phrase_eq elem_eqb (phrase_type k) p self other
  | CC _ coords =>
      match other with
      | CC _ coords' => list_eqb elem_eqb coords coords' && Element_eq self other
      | _ => false
      end
  end.

(** ** Construction helpers *)

(** A positional argument of a setter or adder: raw text or an element. *)
Inductive param : Type :=
| PStr (s : string)
| PElem (e : Element).

(** [String(val)]. *)
Definition mk_String (val : string) : Element := String empty_base val.

(** [String(x) if isinstance(x, str) else x]. *)
Definition coerce (x : param) : Element :=
  match x with
  | PStr s => mk_String s
  | PElem e => e
  end.

Definition _strings_to_elements (params : list param) : list Element :=
  map coerce params.

(** [p in lst]. *)
Definition contains (lst : list Element) (p : Element) : bool :=
  existsb (λ o, elem_eqb o p) lst.

Definition _add_to_list (lst : list Element) (mods : list param)
  : list Element :=
  foldl (λ lst p, if negb (contains lst p) then lst ++ [p] else lst)
        lst (_strings_to_elements mods).

(** [lst.remove(p)]: the first equal item goes. *)
Fixpoint list_remove (lst : list Element) (p : Element) : list Element :=
  match lst with
  | [] => []
  | o :: lst' => if elem_eqb o p then lst' else o :: list_remove lst' p
  end.

Definition _del_from_list (lst : list Element) (mods : list param)
  : list Element :=
  foldl (λ lst p, if contains lst p then list_remove lst p else lst)
        lst (_strings_to_elements mods).

Definition set_front_modifier (l : list Element) (p : Slots Element) :=
  mkSlots (discourse_fn p) l (pre_modifier p) (head p) (complement p)
          (post_modifier p).
Definition set_pre_modifier (l : list Element) (p : Slots Element) :=
  mkSlots (discourse_fn p) (front_modifier p) l (head p) (complement p)
          (post_modifier p).
Definition set_head_slot (h : option Element) (p : Slots Element) :=
  mkSlots (discourse_fn p) (front_modifier p) (pre_modifier p) h (complement p)
          (post_modifier p).
Definition set_complement (l : list Element) (p : Slots Element) :=
  mkSlots (discourse_fn p) (front_modifier p) (pre_modifier p) (head p) l
          (post_modifier p).
Definition set_post_modifier (l : list Element) (p : Slots Element) :=
  mkSlots (discourse_fn p) (front_modifier p) (pre_modifier p) (head p)
          (complement p) l.

Definition add_front_modifier (mods : list param) (p : Slots Element) :=
  set_front_modifier (_add_to_list (front_modifier p) mods) p.
Definition add_pre_modifier (mods : list param) (p : Slots Element) :=
  set_pre_modifier (_add_to_list (pre_modifier p) mods) p.
Definition add_complement (mods : list param) (p : Slots Element) :=
  set_complement (_add_to_list (complement p) mods) p.
Definition add_post_modifier (mods : list param) (p : Slots Element) :=
  set_post_modifier (_add_to_list (post_modifier p) mods) p.

(** [CC.add_coordinate], one call with any number of arguments; any other
    receiver has no such method. *)
Definition add_coordinate (elts : list param) (self : Element)
  : result Element :=
  match self with
  | CC b coords =>
      Ok (CC b (foldl (λ coords e, coords ++ [e]) coords
                      (_strings_to_elements elts)))
  | _ => Raise AttributeError
  end.

(** The constructor [CC], coordinates first, then the conjunction. *)
Definition mk_CC (coords : list param) (conj : string) : Element :=
  CC (mkBase (IdInt 0) (add_feature "conj" conj ∅))
     (foldl (λ coords e, coords ++ [e]) [] (_strings_to_elements coords)).

(** ** Constituents *)

Definition opt_list {A : Type} (f : A → list A) (o : option A) : list A :=
  match o with
  | Some x => f x
  | None => []
  end.

Fixpoint constituents (self : Element) : list Element :=
  match self with
  | String _ _ | Word _ _ _ | PlaceHolder _ _ => [self]
  | Clause _ p subj vp =>
      flat_map constituents (front_modifier p) ++
      opt_list constituents subj ++
      flat_map constituents (pre_modifier p) ++
      opt_list constituents vp ++
      flat_map constituents (complement p) ++
      flat_map constituents (post_modifier p)
  | NP _ p spec =>
      opt_list constituents spec ++
      flat_map constituents (front_modifier p) ++
      flat_map constituents (pre_modifier p) ++
      opt_list constituents (head p) ++
      flat_map constituents (complement p) ++
      flat_map constituents (post_modifier p)
  | Phrase _ _ p =>
      flat_map constituents (front_modifier p) ++
      flat_map constituents (pre_modifier p) ++
      opt_list constituents (head p) ++
      flat_map constituents (complement p) ++
      flat_map constituents (post_modifier p)
  | CC _ coords => flat_map constituents coords
  end.

(** [Element.arguments]. *)
Definition arguments (self : Element) : list Element :=
  filter (λ x, is_placeholder x = true) (constituents self).

(** ** Macro-structure *)

Inductive RST : Type :=
| Elaboration | Exemplification | Contrast | Exception | Set_ | List_
| Sequence | Alternative | Conjunction | Disjunction | Leaf.

Record Message : Type := mkMessage {
  rst : RST;
  nucleus : option Element;
  satelites : list Element
}.

Record Paragraph : Type := mkParagraph {
  messages : list Message
}.

Record DocSection : Type := mkSection {
  section_title : Element;
  paragraphs : list Paragraph
}.

Record Document : Type := mkDocument {
  title : Element;
  sections : list DocSection
}.

(** Every element is truthy and has a [constituents] method, so both tests
    of [Message.constituents] succeed on a present nucleus or satellite. *)
Definition Message_constituents (self : Message) : list Element :=
  opt_list constituents (nucleus self) ++
  flat_map constituents (satelites self).

Definition Paragraph_constituents (self : Paragraph) : list Element :=
  flat_map Message_constituents (messages self).

Definition Section_constituents (self : DocSection) : list Element :=
  section_title self :: flat_map Paragraph_constituents (paragraphs self).

Definition Document_constituents (self : Document) : list Element :=
  title self :: flat_map Section_constituents (sections self).

(** ** Replacement *)

(** [lst[i] = v]. *)
Definition setitem (lst : list Element) (i : nat) (v : Element)
  : result (list Element) :=
  if decide (i < length lst) then Ok (<[i := v]> lst) else Raise IndexError.

(** How one of the [for i, o in enumerate(...)] loops of [Phrase.replace]
    ends: at index [i] with [o == one]; with [o.replace(one, another)]
    true; or by exhausting the list.  Each carries the list as the calls on
    its items left it. *)
Inductive scanned : Type :=
| Equal (i : nat) (l : list Element)
| Inside (l : list Element)
| NotFound (l : list Element).

Definition scanned_cons (o : Element) (s : scanned) : scanned :=
  match s with
  | Equal i l => Equal i (o :: l)
  | Inside l => Inside (o :: l)
  | NotFound l => NotFound (o :: l)
  end.

Section replace_loops.
Variable rep : Element → result (bool * Element).
Variable one : Element.
Variable another : option Element.

Fixpoint scan (i : nat) (l : list Element) : result scanned :=
  match l with
  | [] => Ok (NotFound [])
  | o :: l' =>
      if elem_eqb o one then Ok (Equal i l)
      else
        '(r, o') ← rep o;
        if r : bool then Ok (Inside (o' :: l'))
        else s ← scan (S i) l'; Ok (scanned_cons o' s)
  end.

(** A single-valued slot: [if self.x == one: self.x = another; return True
    elif self.x is not None: if self.x.replace(one, another): return True]. *)
Definition replace_slot (o : option Element) : result (bool * option Element) :=
  match o with
  | Some c =>
      if elem_eqb c one then Ok (true, another)
      else '(r, c') ← rep c; Ok (r, Some c')
  | None => Ok (false, None)
  end.

(** [self.lst[i] = another] on a match; the deletion branch of the four
    loops names [sent], which is bound nowhere. *)
Definition assign (lst : list Element) (i : nat)
    (k : list Element → Slots Element) : result (bool * Slots Element) :=
  match another with
  | None => Raise NameError
  | Some a => lst' ← setitem lst i a; Ok (true, k lst')
  end.

(** [Phrase.replace]: four loops and the head, each ending the call on
    success.  The last loop scans [post_modifier] and assigns into
    [front_modifier]. *)
Definition Phrase_replace (p : Slots Element) : result (bool * Slots Element) :=
  let 'mkSlots df fm pm h c po := p in
  s ← scan 0 fm;
  match s with
  | Equal i fm => assign fm i (λ fm, mkSlots df fm pm h c po)
  | Inside fm => Ok (true, mkSlots df fm pm h c po)
  | NotFound fm =>
  s ← scan 0 pm;
  match s with
  | Equal i pm => assign pm i (λ pm, mkSlots df fm pm h c po)
  | Inside pm => Ok (true, mkSlots df fm pm h c po)
  | NotFound pm =>
  '(r, h) ← replace_slot h;
  if r : bool then Ok (true, mkSlots df fm pm h c po) else
  s ← scan 0 c;
  match s with
  | Equal i c => assign c i (λ c, mkSlots df fm pm h c po)
  | Inside c => Ok (true, mkSlots df fm pm h c po)
  | NotFound c =>
  s ← scan 0 po;
  match s with
  | Equal i po => assign fm i (λ fm, mkSlots df fm pm h c po)
  | Inside po => Ok (true, mkSlots df fm pm h c po)
  | NotFound po => Ok (false, mkSlots df fm pm h c po)
  end end end end.

(** [CC.replace]: equality with a coordinate only, no descent. *)
Fixpoint CC_find (i : nat) (l : list Element) : option nat :=
  match l with
  | [] => None
  | o :: l' => if elem_eqb o one then Some i else CC_find (S i) l'
  end.

Definition CC_replace (coords : list Element)
  : result (bool * list Element) :=
  match CC_find 0 coords with
  | Some i =>
      match another with
      | Some a => l' ← setitem coords i a; Ok (true, l')
      | None => Ok (true, delete i coords)
      end
  | None => Ok (false, coords)
  end.
End replace_loops.

(** [replace(self, one, another)]: the flag returned and the receiver as
    the call leaves it.  Leaves inherit [Element.replace]. *)
Fixpoint replace (self one : Element) (another : option Element)
    {struct self} : result (bool * Element) :=
  let rep := λ o, replace o one another in
  match self with
  | String _ _ | Word _ _ _ | PlaceHolder _ _ => Ok (false, self)
  | Clause b p subj vp =>
      '(r, subj) ← replace_slot rep one another subj;
      if r : bool then Ok (true, Clause b p subj vp) else
      '(r, vp) ← replace_slot rep one another vp;
      if r : bool then Ok (true, Clause b p subj vp) else
      '(r, p) ← Phrase_replace rep one another p;
      Ok (r, Clause b p subj vp)
  | NP b p spec =>
      '(r, spec) ← replace_slot rep one another spec;
      if r : bool then Ok (true, NP b p spec) else
      '(r, p) ← Phrase_replace rep one another p;
      Ok (r, NP b p spec)
  | Phrase k b p =>
      '(r, p) ← Phrase_replace rep one another p;
      Ok (r, Phrase k b p)
  | CC b coords =>
      '(r, coords) ← CC_replace one another coords;
      Ok (r, CC b coords)
  end.

(** ** Attribute lookup

    [__dict__] lists the instance attributes the constructors create, in
    creation order.  No class of the module defines a method, a property
    or a class attribute called [features] or [conj], so looking either
    name up on an element fails. *)

Inductive attr_value : Type :=
| AId (i : pyid)
| AStr (s : string)
| AOptStr (s : option string)
| AFeatures (fs : gmap string string)
| AElem (e : option Element)
| AElems (l : list Element).

Definition Element__dict__ (e : Element) : list (string * attr_value) :=
  [("id", AId (id (base e)));
   ("_visitor_name", AStr (visitor_name e));
   ("_features", AFeatures (_features (base e)))].

Definition Phrase__dict__ (type : string) (p : Slots Element)
  : list (string * attr_value) :=
  [("type", AStr type);
   ("discourse_fn", AOptStr (discourse_fn p));
   ("front_modifier", AElems (front_modifier p));
   ("pre_modifier", AElems (pre_modifier p));
   ("head", AElem (head p));
   ("complement", AElems (complement p));
   ("post_modifier", AElems (post_modifier p))].

Definition __dict__ (e : Element) : list (string * attr_value) :=
  Element__dict__ e ++
  match e with
  | String _ val => [("val", AStr val)]
  | Word _ word pos => [("word", AOptStr word); ("pos", AOptStr pos)]
  | PlaceHolder _ value => [("value", AElem value)]
  | Clause _ p subj vp =>
      Phrase__dict__ "CLAUSE" p ++ [("subj", AElem subj); ("vp", AElem vp)]
  | NP _ p spec => Phrase__dict__ "NOUN_PHRASE" p ++ [("spec", AElem spec)]
  | Phrase k _ p => Phrase__dict__ (phrase_type k) p
  | CC _ coords => [("coords", AElems coords)]
  end.

Fixpoint assoc {V : Type} (k : string) (d : list (string * V)) : option V :=
  match d with
  | [] => None
  | (k', v) :: d' => if String.eqb k k' then Some v else assoc k d'
  end.

Definition getattr (e : Element) (name : string) : result attr_value :=
  match assoc name (__dict__ e) with
  | Some v => Ok v
  | None => Raise AttributeError
  end.

Definition set_features (fs : gmap string string) (e : Element) : Element :=
  let b := mkBase (id (base e)) fs in
  match e with
  | String _ val => String b val
  | Word _ word pos => Word b word pos
  | PlaceHolder _ value => PlaceHolder b value
  | Clause _ p subj vp => Clause b p subj vp
  | NP _ p spec => NP b p spec
  | Phrase k _ p => Phrase k b p
  | CC _ coords => CC b coords
  end.

(** [e.name[key] = value].  The one dict among an element's attributes
    is [_features], so a lookup that finds a dict has found that one. *)
Definition setitem_of_attr (e : Element) (name key value : string)
  : result Element :=
  v ← getattr e name;
  match v with
  | AFeatures fs => Ok (set_features (<[key := value]> fs) e)
  | _ => Raise TypeError
  end.

(** ** The object of a verb phrase *)

(** ['discourseFunction' in c.features and
    c.features['discourseFunction'] == 'OBJECT']. *)
Definition tagged_object (c : Element) : result bool :=
  v ← getattr c "features";
  match v with
  | AFeatures fs => Ok (bool_decide (fs !! "discourseFunction" = Some "OBJECT"))
  | _ => Raise TypeError
  end.

Fixpoint first_object (compl : list Element) : result (option Element) :=
  match compl with
  | [] => Ok None
  | c :: compl' =>
      t ← tagged_object c;
      if t : bool then Ok (Some c) else first_object compl'
  end.

Fixpoint without_objects (compl : list Element) : result (list Element) :=
  match compl with
  | [] => Ok []
  | c :: compl' =>
      t ← tagged_object c;
      compls ← without_objects compl';
      Ok (if t : bool then compls else c :: compls)
  end.

(** The three methods exist on [VP] only. *)
Definition get_object (self : Element) : result (option Element) :=
  match self with
  | Phrase VP _ p => first_object (complement p)
  | _ => Raise AttributeError
  end.

Definition remove_object (self : Element) : result Element :=
  match self with
  | Phrase VP b p =>
      compls ← without_objects (complement p);
      Ok (Phrase VP b (set_complement compls p))
  | _ => Raise AttributeError
  end.

Definition set_object (obj : option param) (self : Element) : result Element :=
  self ← remove_object self;
  match obj, self with
  | None, _ => Ok self
  | Some obj, Phrase VP b p =>
      let obj := coerce obj in
      obj ← setitem_of_attr obj "features" "discourseFunction" "OBJECT";
      Ok (Phrase VP b (set_complement (obj :: complement p) p))
  | Some _, _ => Raise AttributeError
  end.

(** [VP(head, *compl)], the head given as text. *)
Definition mk_VP (head : string) (compl : list param) : Element :=
  Phrase VP empty_base
    (add_complement compl (set_head_slot (Some (mk_String head)) empty_slots)).

(** ** Argument substitution *)

(** [Element.replace_argument]. *)
Definition replace_argument (self : Element) (arg_id : pyid)
    (repl : option Element) : result (bool * Element) :=
  match List.find (λ a, bool_decide (id (base a) = arg_id)) (arguments self) with
  | Some a => replace self a repl
  | None => Ok (false, self)
  end.

(** A positional argument of [replace_arguments]: a dict, or a sequence of
    pairs.  Iterating a dict yields its keys. *)
Inductive posarg : Type :=
| ArgDict (d : list (string * option Element))
| ArgPairs (l : list (pyid * option Element)).

Inductive item : Type :=
| ItemKey (s : string)
| ItemPair (k : pyid) (v : option Element).

Definition iterate (a : posarg) : list item :=
  match a with
  | ArgDict d => map (λ kv, ItemKey (fst kv)) d
  | ArgPairs l => map (λ kv, ItemPair (fst kv) (snd kv)) l
  end.

(** The result of [replace_arguments]: the receiver as the call leaves it;
    an exception; or [BareText], when the call has stored a one-character
    [str] in an element slot, which [Element] has no value for. *)
Inductive substituted : Type :=
| Done (self : Element)
| Failed (e : exn)
| BareText.

(** One round of [for k, v in args[0]: self.replace_argument(k, v)].
    Unpacking a two-character key gives its two characters, the second of
    which a successful replacement stores as it is; a key of any other
    length does not unpack. *)
Definition substitute_item (self : Element) (it : item) : substituted :=
  match it with
  | ItemPair k v =>
      match replace_argument self k v with
      | Ok (_, self) => Done self
      | Raise e => Failed e
      end
  | ItemKey (String.String k (String.String v EmptyString)) =>
      (* the control flow of [replace] does not look at the replacement
         beyond its not being [None] *)
      match replace_argument self (IdStr (String.String k EmptyString))
                             (Some (mk_String (String.String v EmptyString))) with
      | Ok (true, _) => BareText
      | Ok (false, self) => Done self
      | Raise e => Failed e
      end
  | ItemKey _ => Failed ValueError
  end.

Fixpoint substitute_items (self : Element) (its : list item) : substituted :=
  match its with
  | [] => Done self
  | it :: its' =>
      match substitute_item self it with
      | Done self => substitute_items self its'
      | r => r
      end
  end.

(** [Element.replace_arguments(self, *args, **kwargs)]. *)
Definition replace_arguments (self : Element) (args : list posarg)
    (kwargs : list (string * option Element)) : substituted :=
  if bool_decide (0 < length args) && bool_decide (1 < length args) then
    Failed ValueError
  else if bool_decide (0 < length args) then
    match args with
    | a :: _ => substitute_items self (iterate a)
    | [] => Done self
    end
  else
    substitute_items self (map (λ kv, ItemPair (IdStr (fst kv)) (snd kv)) kwargs).

(** ** Text *)

(** [text[:-1]]. *)
Fixpoint drop_last (s : string) : string :=
  match s with
  | EmptyString => EmptyString
  | String.String _ EmptyString => EmptyString
  | String.String c s' => String.String c (drop_last s')
  end.

(** The characters [str.strip] removes, within ASCII. *)
Definition is_space (c : ascii) : bool :=
  let n := nat_of_ascii c in
  (Nat.leb 9 n && Nat.leb n 13) || (Nat.leb 28 n && Nat.leb n 32).

Fixpoint lstrip (s : string) : string :=
  match s with
  | String.String c s' => if is_space c then lstrip s' else s
  | EmptyString => EmptyString
  end.

Fixpoint rstrip (s : string) : string :=
  match s with
  | String.String c s' =>
      match rstrip s' with
      | EmptyString => if is_space c then EmptyString else String.String c EmptyString
      | t => String.String c t
      end
  | EmptyString => EmptyString
  end.

Definition strip (s : string) : string := rstrip (lstrip s).

(** [sep.join(parts)]. *)
Fixpoint join (sep : string) (parts : list string) : string :=
  match parts with
  | [] => ""
  | [s] => s
  | s :: parts' => s +:+ sep +:+ join sep parts'
  end.

(** [str(self.id)]. *)
Definition str_id (i : pyid) : string :=
  match i with
  | IdNone => "None"
  | IdInt n => pretty n
  | IdStr s => s
  end.

Definition attr_str (v : attr_value) : result string :=
  match v with
  | AStr s => Ok s
  | _ => Raise TypeError
  end.

Section str_loops.
Variable str : Element → result string.

Fixpoint strs (l : list Element) : result (list string) :=
  match l with
  | [] => Ok []
  | o :: l' => s ← str o; ss ← strs l'; Ok (s :: ss)
  end.

Definition opt_str (o : option Element) : result string :=
  match o with
  | Some x => str x
  | None => Ok ""
  end.

(** [Phrase.__str__]. *)
Definition Phrase__str__ (fs : gmap string string) (p : Slots Element)
  : result string :=
  let compl := match fs !! "COMPLEMENTISER" with Some c => c | None => "" end in
  fm ← strs (front_modifier p);
  pm ← strs (pre_modifier p);
  h ← opt_str (head p);
  c ← strs (complement p);
  po ← strs (post_modifier p);
  let data := [join " " fm; join " " pm; h; compl; join " " c; join " " po] in
  Ok (join " " (filter (λ x, x ≠ "") data)).

(** The loop of [CC.__str__], [n] the number of coordinates and [i] the
    index of the first item of [l]. *)
Fixpoint CC__str__loop (node : Element) (n i : Z) (l : list Element)
    (acc : string) : result string :=
  match l with
  | [] => Ok acc
  | x :: l' =>
      v ← getattr node "conj"; conj ← attr_str v;
      let acc :=
        if String.eqb conj "and" && bool_decide (i < n - 2)%Z
        then acc +:+ ", "
        else if String.eqb conj "and" && bool_decide (i = n - 1)%Z
        then acc +:+ " and "
        else acc +:+ " " +:+ conj +:+ " " in
      s ← str x;
      CC__str__loop node n (i + 1)%Z l' (acc +:+ s)
  end.
End str_loops.

(** [str(e)]: every concrete class overrides [__str__]. *)
Fixpoint __str__ (self : Element) : result string :=
  match self with
  | String _ val => Ok val
  | Word _ word _ => Ok (default "" word)
  | PlaceHolder b value =>
      match value with
      | Some v => __str__ v
      | None => Ok (str_id (id b))
      end
  | Clause _ _ subj vp =>
      s ← match subj with Some x => s ← __str__ x; Ok [s] | None => Ok [] end;
      v ← match vp with Some x => s ← __str__ x; Ok [s] | None => Ok [] end;
      Ok (join " " (s ++ v))
  | NP b p spec =>
      match spec with
      | Some x =>
          s ← __str__ x; t ← Phrase__str__ __str__ (_features b) p;
          Ok (s +:+ " " +:+ t)
      | None => Phrase__str__ __str__ (_features b) p
      end
  | Phrase _ b p => Phrase__str__ __str__ (_features b) p
  | CC _ coords =>
      CC__str__loop __str__ self (Z.of_nat (length coords)) 0 coords ""
  end.

(** ** The string renderer

    [accept node text] is [node.accept(v)] for a [StrVisitor] [v] whose
    [text] is [text]; the result is [v.text] afterwards. *)

Section visitor_loops.
Variable accept : Element → string → result string.

Fixpoint accept_all (l : list Element) (text : string) : result string :=
  match l with
  | [] => Ok text
  | c :: l' => text ← accept c text; accept_all l' text
  end.

Definition accept_opt (o : option Element) (text : string) : result string :=
  match o with
  | Some c => accept c text
  | None => Ok text
  end.

Definition negation (fs : gmap string string) (text : string) : string :=
  if bool_decide (fs !! "NEGATION" = Some "TRUE") then text +:+ " not"
  else text.

(** [IVisitor.visit_phrase]. *)
Definition visit_phrase (fs : gmap string string) (p : Slots Element)
    (text : string) : result string :=
  let text := negation fs text in
  text ← accept_all (front_modifier p) text;
  text ← accept_all (pre_modifier p) text;
  text ← accept_opt (head p) text;
  let text := match fs !! "COMPLEMENTISER" with
              | Some c => text +:+ " " +:+ c
              | None => text
              end in
  text ← accept_all (complement p) text;
  accept_all (post_modifier p) text.

(** The loop of [visit_cc] over [node.coords[:-1]]. *)
Fixpoint accept_but_last (node : Element) (l : list Element) (text : string)
  : result string :=
  match l with
  | [] => Ok text
  | c :: l' =>
      match l' with
      | [] => Ok text
      | _ :: _ =>
          text ← accept c text;
          v ← getattr node "conj"; conj ← attr_str v;
          text ← (if String.eqb conj "and" then Ok (text +:+ ",")
                  else v ← getattr node "conj"; conj ← attr_str v;
                       Ok (text +:+ " " +:+ conj));
          accept_but_last node l' text
      end
  end.

(** [node.coords[-1].accept(self)]. *)
Fixpoint accept_last (l : list Element) (text : string) : result string :=
  match l with
  | [] => Raise IndexError
  | c :: l' =>
      match l' with
      | [] => accept c text
      | _ :: _ => accept_last l' text
      end
  end.

(** [StrVisitor.visit_cc]. *)
Definition visit_cc (node : Element) (coords : list Element) (text : string)
  : result string :=
  if bool_decide (2 < length coords) then
    text ← accept_but_last node coords text;
    let text := drop_last text in
    v ← getattr node "conj"; conj ← attr_str v;
    let text := text +:+ " " +:+ conj in
    accept_last coords text
  else if bool_decide (1 < length coords) then
    match coords with
    | c0 :: c1 :: _ =>
        text ← accept c0 text;
        conj ← get_feature "conj" (_features (base node));
        let text := text +:+ " " +:+ conj in
        accept c1 text
    | _ => Raise IndexError
    end
  else if bool_decide (0 < length coords) then
    match coords with
    | c0 :: _ => accept c0 text
    | _ => Raise IndexError
    end
  else Ok text.
End visitor_loops.

Fixpoint accept (node : Element) (text : string) : result string :=
  match node with
  | String _ val => Ok (text +:+ " " +:+ val)
  | Word _ word _ => Ok (text +:+ " " +:+ default "" word)
  | PlaceHolder b value =>
      s ← match value with
          | Some v => __str__ v
          | None => Ok (str_id (id b))
          end;
      Ok (text +:+ " " +:+ s)
  | Clause b _ subj vp =>
      let text := negation (_features b) text in
      text ← accept_opt accept subj text;
      accept_opt accept vp text
  | NP b p spec =>
      text ← accept_opt accept spec text;
      visit_phrase accept (_features b) p text
  | Phrase _ b p => visit_phrase accept (_features b) p text
  | CC _ coords => visit_cc accept node coords text
  end.

(** [v = StrVisitor(); e.accept(v); v.to_str()]. *)
Definition render (e : Element) : result string :=
  text ← accept e ""; Ok (strip text).

(** ** The leaves of a tree

    The reading of "every leaf of T" the traversal is compared with: the
    children of a node are what its slots hold, the slots taken in the
    order of the data model ([Phrase] first, then what the subclass adds),
    and the leaves of a tree are the [String], [Word] and [PlaceHolder]
    nodes reached through children. *)

Definition slot_children (p : Slots Element) : list Element :=
  front_modifier p ++ pre_modifier p ++ option_list (head p) ++
  complement p ++ post_modifier p.

Definition children (e : Element) : list Element :=
  match e with
  | String _ _ | Word _ _ _ | PlaceHolder _ _ => []
  | Clause _ p subj vp => slot_children p ++ option_list subj ++ option_list vp
  | NP _ p spec => slot_children p ++ option_list spec
  | Phrase _ _ p => slot_children p
  | CC _ coords => coords
  end.

Fixpoint leaves (e : Element) : list Element :=
  match e with
  | String _ _ | Word _ _ _ | PlaceHolder _ _ => [e]
  | Clause _ p subj vp =>
      flat_map leaves (front_modifier p) ++ flat_map leaves (pre_modifier p) ++
      opt_list leaves (head p) ++ flat_map leaves (complement p) ++
      flat_map leaves (post_modifier p) ++
      opt_list leaves subj ++ opt_list leaves vp
  | NP _ p spec =>
      flat_map leaves (front_modifier p) ++ flat_map leaves (pre_modifier p) ++
      opt_list leaves (head p) ++ flat_map leaves (complement p) ++
      flat_map leaves (post_modifier p) ++
      opt_list leaves spec
  | Phrase _ _ p =>
      flat_map leaves (front_modifier p) ++ flat_map leaves (pre_modifier p) ++
      opt_list leaves (head p) ++ flat_map leaves (complement p) ++
      flat_map leaves (post_modifier p)
  | CC _ coords => flat_map leaves coords
  end.

Definition opt_forallb {A : Type} (f : A → bool) (o : option A) : bool :=
  match o with
  | Some x => f x
  | None => true
  end.

Definition slots_forallb (f : Element → bool) (p : Slots Element) : bool :=
  forallb f (front_modifier p) && forallb f (pre_modifier p) &&
  opt_forallb f (head p) && forallb f (complement p) &&
  forallb f (post_modifier p).

(** No clause of the tree has its inherited [head] slot filled. *)
Fixpoint clause_heads_absent (e : Element) : bool :=
  match e with
  | String _ _ | Word _ _ _ | PlaceHolder _ _ => true
  | Clause _ p subj vp =>
      bool_decide (head p = None) &&
      slots_forallb clause_heads_absent p &&
      opt_forallb clause_heads_absent subj &&
      opt_forallb clause_heads_absent vp
  | NP _ p spec =>
      slots_forallb clause_heads_absent p &&
      opt_forallb clause_heads_absent spec
  | Phrase _ _ p => slots_forallb clause_heads_absent p
  | CC _ coords => forallb clause_heads_absent coords
  end.

Definition Message_elements (m : Message) : list Element :=
  option_list (nucleus m) ++ satelites m.

Definition Message_leaves (m : Message) : list Element :=
  flat_map leaves (Message_elements m).
Definition Paragraph_leaves (p : Paragraph) : list Element :=
  flat_map Message_leaves (messages p).
Definition Section_leaves (s : DocSection) : list Element :=
  leaves (section_title s) ++ flat_map Paragraph_leaves (paragraphs s).
Definition Document_leaves (d : Document) : list Element :=
  leaves (title d) ++ flat_map Section_leaves (sections d).

(** Titles are leaves, and no clause below has a head. *)
Definition Message_plain (m : Message) : bool :=
  forallb clause_heads_absent (Message_elements m).
Definition Paragraph_plain (p : Paragraph) : bool :=
  forallb Message_plain (messages p).
Definition Section_plain (s : DocSection) : bool :=
  is_leaf (section_title s) && forallb Paragraph_plain (paragraphs s).
Definition Document_plain (d : Document) : bool :=
  is_leaf (title d) && forallb Section_plain (sections d).

Definition leaf (x : Element) : Prop := is_leaf x = true.

(** ** Slots by name

    The places of a node that hold children, the children a place holds
    (a single-valued slot holds none or one), and the orders in which
    [replace] and [constituents] go through the places of each kind of
    node, read off the two methods. *)

Inductive slot : Type :=
| Subj | Vp | Spec | Front | Pre | Head | Compl | Post | Coord.

#[global] Instance slot_eq_dec : EqDecision slot.
Proof. solve_decision. Defined.

Definition slots_zone (p : Slots Element) (s : slot) : list Element :=
  match s with
  | Front => front_modifier p
  | Pre => pre_modifier p
  | Head => option_list (head p)
  | Compl => complement p
  | Post => post_modifier p
  | _ => []
  end.

Definition zone (T : Element) (s : slot) : list Element :=
  match T, s with
  | Clause _ _ subj _, Subj => option_list subj
  | Clause _ _ _ vp, Vp => option_list vp
  | Clause _ p _ _, _ => slots_zone p s
  | NP _ _ spec, Spec => option_list spec
  | NP _ p _, _ => slots_zone p s
  | Phrase _ _ p, _ => slots_zone p s
  | CC _ coords, Coord => coords
  | _, _ => []
  end.

Definition first {A : Type} (l : list A) : option A :=
  match l with
  | x :: _ => Some x
  | [] => None
  end.

Definition set_slots_zone (p : Slots Element) (s : slot) (l : list Element)
  : Slots Element :=
  match s with
  | Front => set_front_modifier l p
  | Pre => set_pre_modifier l p
  | Head => set_head_slot (first l) p
  | Compl => set_complement l p
  | Post => set_post_modifier l p
  | _ => p
  end.

Definition set_zone (T : Element) (s : slot) (l : list Element) : Element :=
  match T, s with
  | Clause b p _ vp, Subj => Clause b p (first l) vp
  | Clause b p subj _, Vp => Clause b p subj (first l)
  | Clause b p subj vp, _ => Clause b (set_slots_zone p s l) subj vp
  | NP b p _, Spec => NP b p (first l)
  | NP b p spec, _ => NP b (set_slots_zone p s l) spec
  | Phrase k b p, _ => Phrase k b (set_slots_zone p s l)
  | CC b _, Coord => CC b l
  | _, _ => T
  end.

(** The order of the tests in [Clause.replace], [NP.replace],
    [Phrase.replace] and [CC.replace]. *)
Definition replace_order (T : Element) : list slot :=
  match T with
  | String _ _ | Word _ _ _ | PlaceHolder _ _ => []
  | Clause _ _ _ _ => [Subj; Vp; Front; Pre; Head; Compl; Post]
  | NP _ _ _ => [Spec; Front; Pre; Head; Compl; Post]
  | Phrase _ _ _ => [Front; Pre; Head; Compl; Post]
  | CC _ _ => [Coord]
  end.

(** The order of the [yield]s in the [constituents] methods. *)
Definition constituents_order (T : Element) : list slot :=
  match T with
  | String _ _ | Word _ _ _ | PlaceHolder _ _ => []
  | Clause _ _ _ _ => [Front; Subj; Pre; Vp; Compl; Post]
  | NP _ _ _ => [Spec; Front; Pre; Head; Compl; Post]
  | Phrase _ _ _ => [Front; Pre; Head; Compl; Post]
  | CC _ _ => [Coord]
  end.

(** The places of an order that come before [s]. *)
Fixpoint before (s : slot) (order : list slot) : list slot :=
  match order with
  | [] => []
  | s' :: order' => if decide (s' = s) then [] else s' :: before s order'
  end.

(** [CC.replace] compares its coordinates and calls nothing on them. *)
Definition descends (T : Element) : bool :=
  match T with
  | CC _ _ => false
  | _ => true
  end.

(** A child a loop goes past: it differs from [one], and the call [rep]
    made on it returns [False] and leaves it as it was. *)
Definition goes_past (rep : Element → result (bool * Element))
    (one o : Element) : Prop :=
  elem_eqb o one = false ∧ rep o = Ok (false, o).

(** A child a loop stops at, and what stands in its place afterwards:
    [another] when the child equals [one]; otherwise the child as the
    successful call [rep] leaves it. *)
Definition stops_at (rep : Element → result (bool * Element))
    (one another c c' : Element) : Prop :=
  (elem_eqb c one = true ∧ c' = another) ∨
  (elem_eqb c one = false ∧ rep c = Ok (true, c')).

(** The same for the children of a node [T], the call being [replace]
    where [T] makes one. *)
Definition passed (T x y : Element) : Element → Prop :=
  if descends T then goes_past (λ o, replace o x (Some y)) x
  else λ o, elem_eqb o x = false.

Definition taken (T x y : Element) : Element → Element → Prop :=
  if descends T then stops_at (λ o, replace o x (Some y)) x y
  else λ c c', elem_eqb c x = true ∧ c' = y.

(** The order of the tests in [Phrase.replace]. *)
Definition Phrase_order : list slot := [Front; Pre; Head; Compl; Post].

(** ** Where [replace] looks *)

Definition opt_existsb {A : Type} (f : A → bool) (o : option A) : bool :=
  match o with
  | Some x => f x
  | None => false
  end.

Definition slots_existsb (f : Element → bool) (p : Slots Element) : bool :=
  existsb f (front_modifier p) || existsb f (pre_modifier p) ||
  opt_existsb f (head p) || existsb f (complement p) ||
  existsb f (post_modifier p).

(** [x] is within reach of [replace] in [T]: it equals a child of [T], or
    is within reach in a child of [T]; a [CC] offers its coordinates and
    nothing below them, and a leaf offers nothing. *)
Fixpoint occurs (T x : Element) : bool :=
  let hit := λ o, elem_eqb o x || occurs o x in
  match T with
  | String _ _ | Word _ _ _ | PlaceHolder _ _ => false
  | Clause _ p subj vp =>
      opt_existsb hit subj || opt_existsb hit vp || slots_existsb hit p
  | NP _ p spec => opt_existsb hit spec || slots_existsb hit p
  | Phrase _ _ p => slots_existsb hit p
  | CC _ coords => existsb (λ o, elem_eqb o x) coords
  end.

(** The test a child of [T] has to meet for the scan of [T] to stop at
    it. *)
Definition reached (T x : Element) : Element → bool :=
  if descends T then λ o, elem_eqb o x || occurs o x
  else λ o, elem_eqb o x.

(** No post-modifier that [replace] could come to compare with [x] equals
    [x]. *)
Fixpoint post_clear (T x : Element) : bool :=
  let clear := λ o, post_clear o x in
  let differs := λ o, negb (elem_eqb o x) in
  match T with
  | String _ _ | Word _ _ _ | PlaceHolder _ _ | CC _ _ => true
  | Clause _ p subj vp =>
      opt_forallb clear subj && opt_forallb clear vp &&
      slots_forallb clear p && forallb differs (post_modifier p)
  | NP _ p spec =>
      opt_forallb clear spec &&
      slots_forallb clear p && forallb differs (post_modifier p)
  | Phrase _ _ p => slots_forallb clear p && forallb differs (post_modifier p)
  end.

(** [L] and [L'] differ in that a stretch [X] of [L] reads [Y] in [L']. *)
Definition in_context (X Y L L' : list Element) : Prop :=
  ∃ A B, L = A ++ X ++ B ∧ L' = A ++ Y ++ B.

(** ** The JSON interchange form

    [json] is what [json.dumps] writes and [json.loads] reads, as a tree;
    the text in between is not modelled.  [dumps e] is
    [json.dumps(e, default=ElemntCoder.to_json)]: the encoder calls the
    hook on every element it meets and goes on with the dict the hook
    returns.  [loads j] is [json.loads(text, object_hook=
    ElemntCoder.from_json)]: the decoder calls the hook on the dict of every
    JSON object, innermost first, and goes on with what the hook
    returns. *)

Inductive json : Type :=
| JNull
| JInt (n : Z)
| JStr (s : string)
| JArr (l : list json)
| JObj (m : list (string * json)).

Inductive class : Type :=
| CElement | CString | CWord | CPlaceHolder | CPhrase | CClause | CNP
| CVP | CPP | CAdjP | CAdvP | CCC.

(** [str(cls)]. *)
Definition class_tag (c : class) : string :=
  match c with
  | CElement => "<class 'nlg.structures.Element'>"
  | CString => "<class 'nlg.structures.String'>"
  | CWord => "<class 'nlg.structures.Word'>"
  | CPlaceHolder => "<class 'nlg.structures.PlaceHolder'>"
  | CPhrase => "<class 'nlg.structures.Phrase'>"
  | CClause => "<class 'nlg.structures.Clause'>"
  | CNP => "<class 'nlg.structures.NP'>"
  | CVP => "<class 'nlg.structures.VP'>"
  | CPP => "<class 'nlg.structures.PP'>"
  | CAdjP => "<class 'nlg.structures.AdjP'>"
  | CAdvP => "<class 'nlg.structures.AdvP'>"
  | CCC => "<class 'nlg.structures.CC'>"
  end.

(** [type(e)]. *)
Definition class_of (e : Element) : class :=
  match e with
  | String _ _ => CString
  | Word _ _ _ => CWord
  | PlaceHolder _ _ => CPlaceHolder
  | Clause _ _ _ _ => CClause
  | NP _ _ _ => CNP
  | Phrase VP _ _ => CVP
  | Phrase PP _ _ => CPP
  | Phrase AdvP _ _ => CAdvP
  | Phrase AdjP _ _ => CAdjP
  | CC _ _ => CCC
  end.

Definition dumps_id (i : pyid) : json :=
  match i with
  | IdNone => JNull
  | IdInt n => JInt n
  | IdStr s => JStr s
  end.

Definition dumps_optstr (s : option string) : json :=
  match s with
  | Some s => JStr s
  | None => JNull
  end.

Definition dumps_features (fs : gmap string string) : json :=
  JObj (map (λ kv, (fst kv, JStr (snd kv))) (map_to_list fs)).

Section dumps_attributes.
Variable dumps : Element → json.

Definition dumps_attr (v : attr_value) : json :=
  match v with
  | AId i => dumps_id i
  | AStr s => JStr s
  | AOptStr s => dumps_optstr s
  | AFeatures fs => dumps_features fs
  | AElem (Some e) => dumps e
  | AElem None => JNull
  | AElems l => JArr (map dumps l)
  end.

Definition dumps_dict (d : list (string * attr_value)) : list (string * json) :=
  map (λ kv, (fst kv, dumps_attr (snd kv))) d.
End dumps_attributes.

(** [to_json]'s dict for [e], its [__value__] being [e.__dict__] with the
    elements in it encoded in turn (see [dumps_follows_dict]). *)
Fixpoint dumps (e : Element) : json :=
  let obj := λ fields,
    JObj [("__class__", JStr (class_tag (class_of e)));
          ("__value__", JObj (dumps_dict dumps (Element__dict__ e) ++ fields))] in
  match e with
  | String _ val => obj [("val", JStr val)]
  | Word _ word pos =>
      obj [("word", dumps_optstr word); ("pos", dumps_optstr pos)]
  | PlaceHolder _ value => obj [("value", dumps_attr dumps (AElem value))]
  | Clause _ p subj vp =>
      obj (dumps_dict dumps (Phrase__dict__ "CLAUSE" p) ++
           [("subj", dumps_attr dumps (AElem subj));
            ("vp", dumps_attr dumps (AElem vp))])
  | NP _ p spec =>
      obj (dumps_dict dumps (Phrase__dict__ "NOUN_PHRASE" p) ++
           [("spec", dumps_attr dumps (AElem spec))])
  | Phrase k _ p => obj (dumps_dict dumps (Phrase__dict__ (phrase_type k) p))
  | CC _ coords => obj [("coords", dumps_attr dumps (AElems coords))]
  end.

(** What [json.loads] returns.  [PyObject c d] is an instance of class [c]
    whose [__dict__] is [d], for the instances [from_dict] makes that no
    constructor call could have made and [Element] has no value for. *)
Inductive pyval : Type :=
| PyNone
| PyInt (n : Z)
| PyStr (s : string)
| PyList (l : list pyval)
| PyDict (d : list (string * pyval))
| PyElem (e : Element)
| PyObject (c : class) (d : list (string * pyval)).

(** [d[k] = v] on a dict kept as its items in insertion order. *)
Fixpoint dict_set (k : string) (v : pyval) (d : list (string * pyval))
  : list (string * pyval) :=
  match d with
  | [] => [(k, v)]
  | (k', v') :: d' =>
      if String.eqb k k' then (k, v) :: d' else (k', v') :: dict_set k v d'
  end.

(** The dict the decoder builds from the members of a JSON object. *)
Definition mkdict (items : list (string * pyval)) : list (string * pyval) :=
  foldl (λ d kv, dict_set (fst kv) (snd kv) d) [] items.

(** *** Reading an attribute table back *)

Definition as_id (v : pyval) : option pyid :=
  match v with
  | PyNone => Some IdNone
  | PyInt n => Some (IdInt n)
  | PyStr s => Some (IdStr s)
  | _ => None
  end.

Definition as_str (v : pyval) : option string :=
  match v with
  | PyStr s => Some s
  | _ => None
  end.

Definition as_optstr (v : pyval) : option (option string) :=
  match v with
  | PyNone => Some None
  | PyStr s => Some (Some s)
  | _ => None
  end.

Fixpoint as_strs (d : list (string * pyval)) : option (list (string * string)) :=
  match d with
  | [] => Some []
  | (k, v) :: d' =>
      s ← as_str v; d'' ← as_strs d'; Some ((k, s) :: d'')
  end.

Definition as_features (v : pyval) : option (gmap string string) :=
  match v with
  | PyDict d => l ← as_strs d; Some (list_to_map l)
  | _ => None
  end.

Definition as_elem (v : pyval) : option (option Element) :=
  match v with
  | PyNone => Some None
  | PyElem e => Some (Some e)
  | _ => None
  end.

Fixpoint as_elem_list (l : list pyval) : option (list Element) :=
  match l with
  | [] => Some []
  | PyElem e :: l' => es ← as_elem_list l'; Some (e :: es)
  | _ => None
  end.

Definition as_elems (v : pyval) : option (list Element) :=
  match v with
  | PyList l => as_elem_list l
  | _ => None
  end.

Definition field {A : Type} (d : list (string * pyval)) (k : string)
    (read : pyval → option A) : option A :=
  v ← assoc k d; read v.

(** The attributes of [Element.__init__], the visitor name being the one
    the class passes. *)
Definition as_base (d : list (string * pyval)) (vname : string) : option Base :=
  i ← field d "id" as_id;
  v ← field d "_visitor_name" as_str;
  fs ← field d "_features" as_features;
  if String.eqb v vname then Some (mkBase i fs) else None.

(** The attributes of [Phrase.__init__], the type being the one the class
    passes. *)
Definition as_slots (d : list (string * pyval)) (type : string)
  : option (Slots Element) :=
  t ← field d "type" as_str;
  df ← field d "discourse_fn" as_optstr;
  fm ← field d "front_modifier" as_elems;
  pm ← field d "pre_modifier" as_elems;
  h ← field d "head" as_elem;
  co ← field d "complement" as_elems;
  po ← field d "post_modifier" as_elems;
  if String.eqb t type then Some (mkSlots df fm pm h co po) else None.

Definition as_phrase_kind (k : PhraseKind) (d : list (string * pyval))
  : option Element :=
  b ← as_base d (visitor_name (Phrase k empty_base empty_slots));
  p ← as_slots d (phrase_type k);
  if Nat.eqb (length d) 10 then Some (Phrase k b p) else None.

(** The element whose attribute table is [d], if [d] is the table of an
    instance of [c] as its constructor makes them. *)
Definition as_element (c : class) (d : list (string * pyval)) : option Element :=
  match c with
  | CElement | CPhrase => None
  | CString =>
      b ← as_base d "visit_string"; val ← field d "val" as_str;
      if Nat.eqb (length d) 4 then Some (String b val) else None
  | CWord =>
      b ← as_base d "visit_word";
      word ← field d "word" as_optstr; pos ← field d "pos" as_optstr;
      if Nat.eqb (length d) 5 then Some (Word b word pos) else None
  | CPlaceHolder =>
      b ← as_base d "visit_placeholder"; value ← field d "value" as_elem;
      if Nat.eqb (length d) 4 then Some (PlaceHolder b value) else None
  | CClause =>
      b ← as_base d "visit_clause"; p ← as_slots d "CLAUSE";
      subj ← field d "subj" as_elem; vp ← field d "vp" as_elem;
      if Nat.eqb (length d) 12 then Some (Clause b p subj vp) else None
  | CNP =>
      b ← as_base d "visit_np"; p ← as_slots d "NOUN_PHRASE";
      spec ← field d "spec" as_elem;
      if Nat.eqb (length d) 11 then Some (NP b p spec) else None
  | CVP => as_phrase_kind VP d
  | CPP => as_phrase_kind PP d
  | CAdjP => as_phrase_kind AdjP d
  | CAdvP => as_phrase_kind AdvP d
  | CCC =>
      b ← as_base d "visit_cc"; coords ← field d "coords" as_elems;
      if Nat.eqb (length d) 4 then Some (CC b coords) else None
  end.

(** [Cls.from_dict(dct)]: [o = Cls(); o.__dict__ = dct; return o].  The
    assignment raises [TypeError] unless [dct] is a dict. *)
Definition from_dict (c : class) (dct : pyval) : result pyval :=
  match dct with
  | PyDict d =>
      match as_element c d with
      | Some e => Ok (PyElem e)
      | None => Ok (PyObject c d)
      end
  | _ => Raise TypeError
  end.

(** The classes [from_json] tests for, in its order. *)
Definition known_classes : list class :=
  [CElement; CString; CWord; CPlaceHolder; CPhrase; CClause; CNP; CVP; CPP;
   CAdjP; CAdvP; CCC].

(** [json_object['__class__'] == str(c)]. *)
Definition is_class (cls : pyval) (c : class) : bool :=
  match cls with
  | PyStr s => String.eqb s (class_tag c)
  | _ => false
  end.

(** [ElemntCoder.from_json]. *)
Definition from_json (json_object : list (string * pyval)) : result pyval :=
  match assoc "__class__" json_object with
  | Some cls =>
      match List.find (is_class cls) known_classes with
      | Some c =>
          match assoc "__value__" json_object with
          | Some dct => from_dict c dct
          | None => Raise KeyError
          end
      | None => Ok (PyDict json_object)
      end
  | None => Ok (PyDict json_object)
  end.

Section loads_loops.
Variable loads : json → result pyval.

Fixpoint loads_array (l : list json) : result (list pyval) :=
  match l with
  | [] => Ok []
  | j :: l' => v ← loads j; vs ← loads_array l'; Ok (v :: vs)
  end.

Fixpoint loads_members (m : list (string * json))
  : result (list (string * pyval)) :=
  match m with
  | [] => Ok []
  | (k, j) :: m' => v ← loads j; vs ← loads_members m'; Ok ((k, v) :: vs)
  end.
End loads_loops.

Fixpoint loads (j : json) : result pyval :=
  match j with
  | JNull => Ok PyNone
  | JInt n => Ok (PyInt n)
  | JStr s => Ok (PyStr s)
  | JArr l => vs ← loads_array loads l; Ok (PyList vs)
  | JObj m => items ← loads_members loads m; from_json (mkdict items)
  end.

(** No feature map of the tree, the values of placeholders included, has
    the key [__class__]. *)
Fixpoint no_class_feature (e : Element) : bool :=
  bool_decide (_features (base e) !! "__class__" = None) &&
  match e with
  | String _ _ | Word _ _ _ => true
  | PlaceHolder _ value => opt_forallb no_class_feature value
  | Clause _ p subj vp =>
      slots_forallb no_class_feature p &&
      opt_forallb no_class_feature subj && opt_forallb no_class_feature vp
  | NP _ p spec =>
      slots_forallb no_class_feature p && opt_forallb no_class_feature spec
  | Phrase _ _ p => slots_forallb no_class_feature p
  | CC _ coords => forallb no_class_feature coords
  end.

(** The value of an attribute as a Python value, and an attribute table as
    a dict. *)
Definition py_features (fs : gmap string string) : pyval :=
  PyDict (map (λ kv, (fst kv, PyStr (snd kv))) (map_to_list fs)).

Definition py_elems (l : list Element) : pyval := PyList (map PyElem l).

Definition py_attr (v : attr_value) : pyval :=
  match v with
  | AId IdNone => PyNone
  | AId (IdInt n) => PyInt n
  | AId (IdStr s) => PyStr s
  | AStr s => PyStr s
  | AOptStr (Some s) => PyStr s
  | AOptStr None => PyNone
  | AFeatures fs => py_features fs
  | AElem (Some e) => PyElem e
  | AElem None => PyNone
  | AElems l => py_elems l
  end.

Definition py_dict (d : list (string * attr_value)) : list (string * pyval) :=
  map (λ kv, (fst kv, py_attr (snd kv))) d.


(** What the round trip asks of one attribute: of a feature map, not to
    have the key [__class__]; of the elements held, to come back
    themselves. *)
Definition comes_back (e : Element) : Prop := loads (dumps e) = Ok (PyElem e).

Definition attr_comes_back (v : attr_value) : Prop :=
  match v with
  | AFeatures fs => fs !! "__class__" = None
  | AElem o => OptAll comes_back o
  | AElems l => Forall comes_back l
  | _ => True
  end.

(** ** The other setters of a phrase *)

(** [Phrase.set_post_modifiers]: the list is what it is given, an item
    given twice being there twice. *)
Definition set_post_modifiers (mods : list param) (p : Slots Element) :=
  set_post_modifier (_strings_to_elements mods) p.

Definition del_front_modifier (mods : list param) (p : Slots Element) :=
  set_front_modifier (_del_from_list (front_modifier p) mods) p.
Definition del_pre_modifier (mods : list param) (p : Slots Element) :=
  set_pre_modifier (_del_from_list (pre_modifier p) mods) p.
Definition del_complement (mods : list param) (p : Slots Element) :=
  set_complement (_del_from_list (complement p) mods) p.
Definition del_post_modifier (mods : list param) (p : Slots Element) :=
  set_post_modifier (_del_from_list (post_modifier p) mods) p.

(** A child the call [rep] leaves as it was when it returns [False]. *)
Definition keeps (rep : Element → result (bool * Element)) (o : Element)
  : Prop :=
  ∀ o', rep o = Ok (false, o') → o' = o.

(** A step of the renderer that only appends to the text: run on [text]
    it fails as it does on the empty text, or gives [text] followed by
    what it gives on the empty text. *)
Definition appends (f : string → result string) : Prop :=
  ∀ text, f text = (s ← f ""; Ok (text +:+ s)).

(** ** What renders *)

Definition is_ok {A : Type} (r : result A) : bool :=
  match r with
  | Ok _ => true
  | Raise _ => false
  end.

(** What [str] goes through holds no coordination with a coordinate:
    [Clause.__str__] goes through the subject and the verb phrase, the
    other phrases through their slots, a placeholder through its value. *)
Fixpoint str_ok (e : Element) : bool :=
  match e with
  | String _ _ | Word _ _ _ => true
  | PlaceHolder _ value => opt_forallb str_ok value
  | Clause _ _ subj vp => opt_forallb str_ok subj && opt_forallb str_ok vp
  | NP _ p spec => opt_forallb str_ok spec && slots_forallb str_ok p
  | Phrase _ _ p => slots_forallb str_ok p
  | CC _ coords => match coords with [] => true | _ :: _ => false end
  end.

(** What the string renderer goes through holds no coordination of three
    or more, no coordination of two without the feature [conj], and no
    placeholder whose value [str] fails on. *)
Fixpoint renderable (e : Element) : bool :=
  match e with
  | String _ _ | Word _ _ _ => true
  | PlaceHolder _ value => opt_forallb str_ok value
  | Clause _ _ subj vp =>
      opt_forallb renderable subj && opt_forallb renderable vp
  | NP _ p spec => opt_forallb renderable spec && slots_forallb renderable p
  | Phrase _ _ p => slots_forallb renderable p
  | CC b coords =>
      match coords with
      | [] => true
      | [c0] => renderable c0
      | [c0; c1] =>
          renderable c0 && has_feature "conj" (_features b) && renderable c1
      | _ => false
      end
  end.

(** ** The iterators of the module

    A generator is the list of what it yields; [None] is among the things
    yielded, for an absent verb phrase, subject or specifier. *)

Section iterator_loops.
Variable iter : Element → list (option Element).

(** [for x in sentence_iterator(o): yield x] for a slot that may hold
    [None]: on [None] no test of the iterator holds and its last line
    yields it. *)
Definition iter_opt (o : option Element) : list (option Element) :=
  match o with
  | Some e => iter e
  | None => [None]
  end.

(** [for o in reversed(lst): for x in sentence_iterator(o): yield x]. *)
Definition iter_reversed (l : list Element) : list (option Element) :=
  concat (rev (map iter l)).

(** The branch for a [Phrase] that is no [Clause], [spec] being what the
    test for [NP] adds, followed by the [else] of the test for [CC]. *)
Definition Phrase_iter (sent : Element) (p : Slots Element)
    (spec : list (option Element)) : list (option Element) :=
  iter_reversed (post_modifier p) ++
  iter_reversed (complement p) ++
  match head p with Some h => iter h | None => [] end ++
  iter_reversed (pre_modifier p) ++
  spec ++
  iter_reversed (front_modifier p) ++
  [Some sent].
End iterator_loops.

(** [sentence_iterator]. *)
Fixpoint sentence_iterator (sent : Element) : list (option Element) :=
  match sent with
  | Clause _ _ subj vp => iter_opt sentence_iterator vp ++ [vp; subj]
  | NP _ p spec =>
      Phrase_iter sentence_iterator sent p (iter_opt sentence_iterator spec)
  | Phrase _ _ p => Phrase_iter sentence_iterator sent p []
  | CC _ coords => map Some coords ++ [Some sent]
  | String _ _ | Word _ _ _ | PlaceHolder _ _ => [Some sent]
  end.


Definition is_clause (e : Element) : bool :=
  match e with
  | Clause _ _ _ _ => true
  | _ => false
  end.

(** ** The module's [replace_element] *)

Section replace_element_loops.
Variable rep : Element → bool * Element.
Variable elt : Element.
Variable replacement : option Element.

(** One of the loops [for i, o in reversed(list(enumerate(lst)))]: the
    items from the last one down, each compared with [elt] and, when it
    differs, searched; the flag tells whether the loop returned [True],
    the list is [lst] as the loop leaves it.  On a match at [i] the
    item goes ([del lst[i]]) or gives way to the replacement
    ([lst[i] = replacement]). *)
Fixpoint scan_reversed (lst : list Element) : bool * list Element :=
  match lst with
  | [] => (false, [])
  | o :: lst' =>
      let '(r, lst') := scan_reversed lst' in
      if r : bool then (true, o :: lst')
      else if elem_eqb o elt then (true, option_list replacement ++ lst')
      else let '(r, o) := rep o in (r, o :: lst')
  end.

(** [if sent.x == elt: sent.x = replacement; return True], followed for
    the subject and the verb phrase of a clause by
    [else: if replace_element(sent.x, elt, replacement): return True];
    on [None] neither test holds. *)
Definition assign_slot (o : option Element) : bool * option Element :=
  match o with
  | Some c => if elem_eqb c elt then (true, replacement) else (false, o)
  | None => (false, None)
  end.

Definition search_slot (o : option Element) : bool * option Element :=
  match o with
  | Some c =>
      if elem_eqb c elt then (true, replacement)
      else let '(r, c) := rep c in (r, Some c)
  | None => (false, None)
  end.

(** The branch for a [Phrase]: the post-modifiers, the complements, the
    head, the pre-modifiers, for an [NP] the specifier, the
    front-modifiers; [spec] is the specifier and [k] puts the parts
    together again. *)
Definition Phrase_replace_element {A : Type} (p : Slots Element)
    (spec : option Element) (np : bool)
    (k : Slots Element → option Element → A) : bool * A :=
  let 'mkSlots df fm pm h c po := p in
  let '(r, po) := scan_reversed po in
  if r : bool then (true, k (mkSlots df fm pm h c po) spec) else
  let '(r, c) := scan_reversed c in
  if r : bool then (true, k (mkSlots df fm pm h c po) spec) else
  let '(r, h) := assign_slot h in
  if r : bool then (true, k (mkSlots df fm pm h c po) spec) else
  let '(r, pm) := scan_reversed pm in
  if r : bool then (true, k (mkSlots df fm pm h c po) spec) else
  let '(r, spec) := if np then assign_slot spec else (false, spec) in
  if r : bool then (true, k (mkSlots df fm pm h c po) spec) else
  let '(r, fm) := scan_reversed fm in
  (r, k (mkSlots df fm pm h c po) spec).

(** The branch for a [CC]: the first coordinate equal to [elt]. *)
Fixpoint replace_coordinate (coords : list Element) : bool * list Element :=
  match coords with
  | [] => (false, [])
  | o :: coords' =>
      if elem_eqb o elt then (true, option_list replacement ++ coords')
      else let '(r, coords') := replace_coordinate coords' in (r, o :: coords')
  end.
End replace_element_loops.

(** [replace_element(sent, elt, replacement)]: the flag returned and [sent]
    as the call leaves it. *)
Fixpoint replace_element (sent elt : Element) (replacement : option Element)
    {struct sent} : bool * Element :=
  let rep := λ o, replace_element o elt replacement in
  if elem_eqb sent elt then (true, sent) else
  match sent with
  | String _ _ | Word _ _ _ | PlaceHolder _ _ => (false, sent)
  | Clause b p subj vp =>
      let '(r, subj) := search_slot rep elt replacement subj in
      if r : bool then (true, Clause b p subj vp) else
      let '(r, vp) := search_slot rep elt replacement vp in
      if r : bool then (true, Clause b p subj vp) else
      Phrase_replace_element rep elt replacement p None false
        (λ p _, Clause b p subj vp)
  | NP b p spec =>
      Phrase_replace_element rep elt replacement p spec true
        (λ p spec, NP b p spec)
  | Phrase k b p =>
      Phrase_replace_element rep elt replacement p None false
        (λ p _, Phrase k b p)
  | CC b coords =>
      let '(r, coords) := replace_coordinate elt replacement coords in
      (r, CC b coords)
  end.

(** A child the search [rep] leaves as it was when it returns [False]. *)
Definition unchanged (rep : Element → bool * Element) (o : Element) : Prop :=
  ∀ o', rep o = (false, o') → o' = o.

(** * Properties *)

Section eq_helpers_spec.
Context {A : Type} (eqb : A → A → bool).

Lemma list_eqb_spec (l1 : list A) :
  Forall (λ x, ∀ y, eqb x y = true ↔ x = y) l1 →
  ∀ l2, list_eqb eqb l1 l2 = true ↔ l1 = l2.
Proof.
  induction 1 as [|x l1 Hx _ IH]; intros [|y l2]; simpl; try done.
  rewrite andb_true_iff, Hx, IH. split; [intros [-> ->]; done|].
  by intros [= -> ->].
Qed.

Lemma opt_eqb_spec (o1 : option A) :
  OptAll (λ x, ∀ y, eqb x y = true ↔ x = y) o1 →
  ∀ o2, opt_eqb eqb o1 o2 = true ↔ o1 = o2.
Proof.
  destruct o1 as [x|]; intros Hx [y|]; simpl in *; try done.
  rewrite Hx. split; [by intros ->|by intros [= ->]].
Qed.
End eq_helpers_spec.

Lemma phrase_type_inj (k k' : PhraseKind) :
  String.eqb (phrase_type k) (phrase_type k') = true → k = k'.
Proof. by destruct k, k'. Qed.

Ltac eqb_fwd :=
  repeat match goal with
  | H : _ && _ = true |- _ => apply andb_true_iff in H; destruct H
  | H : bool_decide _ = true |- _ => apply bool_decide_eq_true in H
  | H : String.eqb (phrase_type _) (phrase_type _) = true |- _ =>
      apply phrase_type_inj in H
  | H : String.eqb _ _ = true |- _ => apply String.eqb_eq in H
  | H : list_eqb _ _ _ = true |- _ => apply list_eqb_spec in H; [|assumption]
  | H : opt_eqb _ _ _ = true |- _ => apply opt_eqb_spec in H; [|assumption]
  end.

Ltac eqb_bwd :=
  repeat match goal with
  | |- _ && _ = true => apply andb_true_iff; split
  | |- bool_decide _ = true => apply bool_decide_eq_true; reflexivity
  | |- String.eqb _ _ = true => apply String.eqb_eq; reflexivity
  | |- list_eqb _ _ _ = true => apply list_eqb_spec; [assumption|reflexivity]
  | |- opt_eqb _ _ _ = true => apply opt_eqb_spec; [assumption|reflexivity]
  end.

(** On the concrete kinds, [==] is equality of all attributes. *)
Lemma elem_eqb_eq (x y : Element) : elem_eqb x y = true ↔ x = y.
Proof.
  revert y. induction x as
    [b val|b word pos|b value IHv|b p subj vp IHp IHs IHvp|b p spec IHp IHs
    |k b p IHp|b coords IHc] using Element_nested_ind; intros y.
  all: try destruct IHp as (IHfm & IHpm & IHh & IHc & IHpo).
  all: split;
    [|intros <-; cbn; unfold Phrase_eq, Element_eq; cbn; eqb_bwd; reflexivity].
  all: destruct y as [b' val'|b' word' pos'|b' value'|b' p' subj' vp'
                     |b' p' spec'|k' b' p'|b' coords']; cbn;
    unfold Phrase_eq, Element_eq; cbn; try discriminate.
  all: try (destruct k; cbn; discriminate).
  all: intros H; eqb_fwd; destruct b, b'; try destruct p, p'; cbn in *;
    subst; try reflexivity.
Qed.

(** ** The feature store *)

Lemma del_feature_without_value (feat : string) (fs : gmap string string) :
  del_feature feat None fs = fs.
Proof.
  unfold del_feature. destruct (fs !! feat) as [stored|]; [|done].
  rewrite bool_decide_false by (intros H; by apply H).
  by rewrite bool_decide_false.
Qed.

Lemma del_feature_with_value (feat val : string) (fs : gmap string string) :
  del_feature feat (Some val) fs = delete feat fs.
Proof.
  unfold del_feature. destruct (fs !! feat) as [stored|] eqn:E.
  - by rewrite bool_decide_true.
  - by rewrite delete_id.
Qed.

(** C5 (the code departs from the claim and from its own docstring): on the
    feature map holding only TENSE = PAST, [del_feature] called without an
    expected value leaves TENSE in place, and called with the expected
    value PRESENT, which is not the stored one, removes TENSE. *)
Theorem del_feature_inverted :
  del_feature "TENSE" None {[ "TENSE" := "PAST" ]}
    = ({[ "TENSE" := "PAST" ]} : gmap string string) ∧
  del_feature "TENSE" (Some "PRESENT") {[ "TENSE" := "PAST" ]}
    = (∅ : gmap string string).
Proof.
  split.
  - apply del_feature_without_value.
  - rewrite del_feature_with_value. apply delete_singleton_eq.
Qed.

(** ** Adding to a list *)

Lemma foldl_append (l acc : list Element) :
  foldl (λ coords e, coords ++ [e]) acc l = acc ++ l.
Proof.
  revert acc. induction l as [|e l IH]; intros acc; simpl.
  - by rewrite app_nil_r.
  - rewrite IH, <- app_assoc. done.
Qed.

(** C10: [add_coordinate] appends every argument, coerced, at the end of
    the coordinates whatever they already hold, so adding an element twice
    leaves it there twice; the add-operations of a phrase leave their list
    as it is when it already holds an equal element, and append
    otherwise. *)
Theorem add_coordinate_keeps_duplicates :
  (∀ b coords elts,
     add_coordinate elts (CC b coords)
       = Ok (CC b (coords ++ _strings_to_elements elts))) ∧
  (∀ b coords e,
     add_coordinate [e; e] (CC b coords)
       = Ok (CC b (coords ++ [coerce e; coerce e]))) ∧
  (∀ lst e,
     _add_to_list lst [e]
       = if contains lst (coerce e) then lst else lst ++ [coerce e]) ∧
  (∀ p e,
     front_modifier (add_front_modifier [e] p)
       = _add_to_list (front_modifier p) [e] ∧
     pre_modifier (add_pre_modifier [e] p)
       = _add_to_list (pre_modifier p) [e] ∧
     complement (add_complement [e] p) = _add_to_list (complement p) [e] ∧
     post_modifier (add_post_modifier [e] p)
       = _add_to_list (post_modifier p) [e]).
Proof.
  repeat split.
  - intros b coords elts. simpl. by rewrite foldl_append.
  - intros b coords e. simpl. by rewrite <- app_assoc.
  - intros lst e. unfold _add_to_list. simpl.
    by destruct (contains lst (coerce e)).
Qed.

(** ** Attribute lookup *)

Lemma getattr_features (e : Element) :
  getattr e "features" = Raise AttributeError.
Proof. by destruct e. Qed.

Lemma getattr_conj (e : Element) : getattr e "conj" = Raise AttributeError.
Proof. by destruct e. Qed.

Lemma tagged_object_raises (c : Element) :
  tagged_object c = Raise AttributeError.
Proof. unfold tagged_object. by rewrite getattr_features. Qed.

Lemma get_object_raises b p c compl :
  complement p = c :: compl →
  get_object (Phrase VP b p) = Raise AttributeError.
Proof. intros E. simpl. rewrite E. simpl. by rewrite tagged_object_raises. Qed.

Lemma get_object_no_complement b p :
  complement p = [] → get_object (Phrase VP b p) = Ok None.
Proof. intros E. simpl. by rewrite E. Qed.

(** C8 (the code departs from the claim): on every verb phrase and for
    every object that is not absent, [set_object] raises [AttributeError],
    because it reads the attribute [features] where elements carry
    [_features]; no complement is ever tagged. *)
Theorem set_object_raises b p (obj : param) :
  set_object (Some obj) (Phrase VP b p) = Raise AttributeError.
Proof.
  unfold set_object, remove_object.
  destruct (complement p) as [|c compl]; simpl.
  - unfold setitem_of_attr. by rewrite getattr_features.
  - by rewrite tagged_object_raises.
Qed.

(** ** Deleting through [replace] *)

(** C6 (the code departs from the claim): with the absent replacement, a
    match in the front-modifiers, the pre-modifiers, the complements or the
    post-modifiers of a phrase ends in [NameError], the deletion statement
    naming a variable that is bound nowhere; a match among the coordinates
    of a [CC] deletes that coordinate and returns [True]. *)
Theorem replace_by_absent_raises :
  let it := mk_String "it" in
  let now := mk_String "now" in
  replace (Phrase VP empty_base (mkSlots None [it] [] None [] [])) it None
    = Raise NameError ∧
  replace (Phrase VP empty_base (mkSlots None [] [it] None [] [])) it None
    = Raise NameError ∧
  replace (mk_VP "put" [PStr "it"; PStr "now"]) it None = Raise NameError ∧
  replace (Phrase VP empty_base (mkSlots None [] [] None [] [it])) it None
    = Raise NameError ∧
  replace (mk_CC [PStr "it"; PStr "now"] "and") it None
    = Ok (true, mk_CC [PStr "now"] "and").
Proof. repeat split. Qed.

(** ** Rendering a coordination *)

Lemma render_cc_up_to_two :
  let A := mk_String "A" in
  let B := mk_String "B" in
  render (mk_CC [] "and") = Ok "" ∧
  render (mk_CC [PElem A] "and") = Ok "A" ∧
  render (mk_CC [PElem A; PElem B] "and") = Ok "A and B" ∧
  render (mk_CC [PElem A; PElem B] "or") = Ok "A or B".
Proof. repeat split. Qed.

Lemma accept_cc_three_or_more b c0 c1 c2 coords text :
  ∃ e, accept (CC b (c0 :: c1 :: c2 :: coords)) text = Raise e.
Proof.
  cbn [accept]. unfold visit_cc.
  rewrite bool_decide_true by (simpl; lia).
  cbn [accept_but_last]. destruct (accept c0 text) as [text'|e]; cbn.
  - eauto.
  - eauto.
Qed.

(** C3 (the code departs from the claim): the coordination of A, B and C
    with the default conjunction does not render; after the first
    coordinate the renderer reads the attribute [conj], which no [CC]
    has, the conjunction being a feature, and [AttributeError] is raised.
    The same happens with the conjunction "or". *)
Theorem render_cc_three_raises :
  let A := mk_String "A" in
  let B := mk_String "B" in
  let C := mk_String "C" in
  render (mk_CC [PElem A; PElem B; PElem C] "and") = Raise AttributeError ∧
  render (mk_CC [PElem A; PElem B; PElem C] "or") = Raise AttributeError.
Proof. repeat split. Qed.

(** ** Batch substitution *)

(** C7 (the code departs from the claim): a call that passes a mapping and
    a keyword returns without raising and without applying the keyword,
    whether the mapping is empty or has the two-character key "a1"; a
    mapping whose key is "x" does not unpack and raises [ValueError] on its
    own, keyword or not; a sequence of pairs passed with a keyword is
    applied and the keyword dropped; keywords alone replace the
    placeholder. *)
Theorem replace_arguments_mixed_forms :
  let x := PlaceHolder (mkBase (IdStr "x") ∅) None in
  let John := mk_String "John" in
  let Mary := mk_String "Mary" in
  let T := Clause empty_base empty_slots (Some x) (Some (mk_VP "go" [])) in
  replace_arguments T [ArgDict []] [("x", Some John)] = Done T ∧
  replace_arguments T [ArgDict [("a1", Some Mary)]] [("x", Some John)]
    = Done T ∧
  replace_arguments T [ArgDict [("x", Some Mary)]] [] = Failed ValueError ∧
  replace_arguments T [ArgDict [("x", Some Mary)]] [("x", Some John)]
    = Failed ValueError ∧
  replace_arguments T [ArgPairs [(IdStr "x", Some Mary)]] [("x", Some John)]
    = Done (Clause empty_base empty_slots (Some Mary) (Some (mk_VP "go" []))) ∧
  replace_arguments T [] [("x", Some John)]
    = Done (Clause empty_base empty_slots (Some John) (Some (mk_VP "go" []))).
Proof. repeat split. Qed.

Lemma replace_arguments_ignores_keywords T a kwargs :
  replace_arguments T [a] kwargs = replace_arguments T [a] [].
Proof. done. Qed.

(** ** Constituents and leaves *)

Lemma flat_map_option_list {A : Type} (f : A → list A) (o : option A) :
  flat_map f (option_list o) = opt_list f o.
Proof. destruct o; cbn; [apply app_nil_r|done]. Qed.

Lemma leaves_children (e : Element) :
  leaves e = if is_leaf e then [e] else flat_map leaves (children e).
Proof.
  destruct e as [| | |b p subj vp|b p spec|k b p|b coords]; cbn; try done.
  all: unfold slot_children.
  all: by rewrite !flat_map_app, !flat_map_option_list, <- ?app_assoc.
Qed.

Lemma Forall_flat_map {A B : Type} (P : B → Prop) (f : A → list B) l :
  Forall (λ o, Forall P (f o)) l → Forall P (flat_map f l).
Proof.
  induction 1 as [|o l Ho _ IH]; cbn; [constructor|].
  apply Forall_app. done.
Qed.

Lemma Forall_opt_list {A : Type} (P : A → Prop) (f : A → list A) o :
  OptAll (λ x, Forall P (f x)) o → Forall P (opt_list f o).
Proof. destruct o; cbn; [done|constructor]. Qed.

Lemma constituents_only_leaves (T : Element) : Forall leaf (constituents T).
Proof.
  induction T as [| | |b p subj vp IHp IHs IHvp|b p spec IHp IHs|k b p IHp
                 |b coords IHc] using Element_nested_ind; cbn.
  1-3: by repeat constructor.
  all: try destruct IHp as (IHfm & IHpm & IHh & IHc & IHpo).
  all: repeat apply Forall_app_2.
  all: by (apply Forall_flat_map || apply Forall_opt_list).
Qed.

Lemma Permutation_flat_map (g : Element → bool) (f f' : Element → list Element) l :
  Forall (λ o, g o = true → f o ≡ₚ f' o) l →
  forallb g l = true → flat_map f l ≡ₚ flat_map f' l.
Proof.
  induction 1 as [|o l Ho _ IH]; cbn; [done|].
  intros [Hg Hl]%andb_true_iff. by rewrite Ho, IH.
Qed.

Lemma Permutation_opt_list (g : Element → bool) (f f' : Element → list Element) o :
  OptAll (λ x, g x = true → f x ≡ₚ f' x) o →
  opt_forallb g o = true → opt_list f o ≡ₚ opt_list f' o.
Proof. destruct o; cbn; auto. Qed.

Ltac split_andb :=
  repeat match goal with
  | H : _ && _ = true |- _ => apply andb_true_iff in H; destruct H
  | H : bool_decide _ = true |- _ => apply bool_decide_eq_true in H
  end.

Lemma constituents_perm_leaves (T : Element) :
  clause_heads_absent T = true → constituents T ≡ₚ leaves T.
Proof.
  induction T as [| | |b p subj vp IHp IHs IHvp|b p spec IHp IHs|k b p IHp
                 |b coords IHc] using Element_nested_ind; cbn; try done.
  all: try destruct IHp as (IHfm & IHpm & IHh & IHc & IHpo).
  all: unfold slots_forallb; intros H; split_andb.
  all: repeat match goal with
       | IH : Forall _ ?l |- context [flat_map constituents ?l] =>
           rewrite (Permutation_flat_map _ _ _ l IH) by done; clear IH
       | IH : OptAll _ ?o |- context [opt_list constituents ?o] =>
           rewrite (Permutation_opt_list _ _ _ o IH) by done; clear IH
       end.
  all: try done.
  - match goal with H : head p = None |- _ => rewrite H end. cbn.
    solve_Permutation.
  - solve_Permutation.
Qed.

Lemma Message_only_leaves (m : Message) : Forall leaf (Message_constituents m).
Proof.
  unfold Message_constituents. apply Forall_app_2.
  - destruct (nucleus m); cbn; [apply constituents_only_leaves|constructor].
  - apply Forall_flat_map, Forall_forall. intros. apply constituents_only_leaves.
Qed.

Lemma Paragraph_only_leaves (p : Paragraph) :
  Forall leaf (Paragraph_constituents p).
Proof.
  apply Forall_flat_map, Forall_forall. intros. apply Message_only_leaves.
Qed.

Lemma Section_only_leaves (s : DocSection) :
  Forall leaf (Section_constituents s) ↔ is_leaf (section_title s) = true.
Proof.
  unfold Section_constituents. rewrite Forall_cons. split; [by intros [? _]|].
  intros H. split; [done|].
  apply Forall_flat_map, Forall_forall. intros. apply Paragraph_only_leaves.
Qed.

Lemma Document_only_leaves (d : Document) :
  Forall leaf (Document_constituents d) ↔
  is_leaf (title d) = true ∧
  Forall (λ s, is_leaf (section_title s) = true) (sections d).
Proof.
  unfold Document_constituents. rewrite Forall_cons.
  apply and_iff_compat_l. induction (sections d) as [|s l IH]; cbn [flat_map].
  - split; constructor.
  - rewrite Forall_app, Forall_cons, IH, Section_only_leaves. done.
Qed.

Lemma flat_map_Permutation {A : Type} (g : A → bool) (f f' : A → list Element) l :
  (∀ x, g x = true → f x ≡ₚ f' x) →
  forallb g l = true → flat_map f l ≡ₚ flat_map f' l.
Proof.
  intros Hf. induction l as [|o l IH]; cbn; [done|].
  intros [Hg Hl]%andb_true_iff. by rewrite Hf, IH.
Qed.

Lemma Message_perm_leaves (m : Message) :
  Message_plain m = true → Message_constituents m ≡ₚ Message_leaves m.
Proof.
  unfold Message_plain, Message_constituents, Message_leaves, Message_elements.
  rewrite forallb_app, flat_map_app, flat_map_option_list.
  intros [Hn Hs]%andb_true_iff. f_equiv.
  - destruct (nucleus m); cbn in *; [|done].
    apply constituents_perm_leaves. by rewrite andb_true_r in Hn.
  - by apply (flat_map_Permutation clause_heads_absent);
      [apply constituents_perm_leaves|].
Qed.

Lemma Paragraph_perm_leaves (p : Paragraph) :
  Paragraph_plain p = true → Paragraph_constituents p ≡ₚ Paragraph_leaves p.
Proof. apply flat_map_Permutation, Message_perm_leaves. Qed.

Lemma leaves_of_leaf (e : Element) : is_leaf e = true → leaves e = [e].
Proof. by destruct e. Qed.

Lemma Section_perm_leaves (s : DocSection) :
  Section_plain s = true → Section_constituents s ≡ₚ Section_leaves s.
Proof.
  unfold Section_plain, Section_constituents, Section_leaves.
  intros [Ht Hp]%andb_true_iff. rewrite (leaves_of_leaf _ Ht). cbn. f_equiv.
  revert Hp. apply flat_map_Permutation, Paragraph_perm_leaves.
Qed.

Lemma Document_perm_leaves (d : Document) :
  Document_plain d = true → Document_constituents d ≡ₚ Document_leaves d.
Proof.
  unfold Document_plain, Document_constituents, Document_leaves.
  intros [Ht Hp]%andb_true_iff. rewrite (leaves_of_leaf _ Ht). cbn. f_equiv.
  revert Hp. apply flat_map_Permutation, Section_perm_leaves.
Qed.

(** C2 (as amended): [constituents] of an element tree yields leaves
    only, and yields every leaf of the tree exactly once when no clause of
    the tree has its inherited head slot filled.  A message and a paragraph
    yield leaves only, and every leaf once under the same proviso.  A
    section and a document yield their title element itself, so they
    yield leaves only exactly when the titles are leaves, and then, under
    the proviso, every leaf once. *)
Theorem constituents_yield_leaves
    (T : Element) (m : Message) (p : Paragraph) (s : DocSection)
    (d : Document) :
  (Forall leaf (constituents T) ∧
   (clause_heads_absent T = true → constituents T ≡ₚ leaves T)) ∧
  (Forall leaf (Message_constituents m) ∧
   (Message_plain m = true → Message_constituents m ≡ₚ Message_leaves m)) ∧
  (Forall leaf (Paragraph_constituents p) ∧
   (Paragraph_plain p = true →
    Paragraph_constituents p ≡ₚ Paragraph_leaves p)) ∧
  ((Forall leaf (Section_constituents s) ↔
    is_leaf (section_title s) = true) ∧
   (Section_plain s = true → Section_constituents s ≡ₚ Section_leaves s)) ∧
  ((Forall leaf (Document_constituents d) ↔
    is_leaf (title d) = true ∧
    Forall (λ s, is_leaf (section_title s) = true) (sections d)) ∧
   (Document_plain d = true → Document_constituents d ≡ₚ Document_leaves d)).
Proof.
  split; [split; [apply constituents_only_leaves|apply constituents_perm_leaves]|].
  split; [split; [apply Message_only_leaves|apply Message_perm_leaves]|].
  split; [split; [apply Paragraph_only_leaves|apply Paragraph_perm_leaves]|].
  split; [split; [apply Section_only_leaves|apply Section_perm_leaves]|].
  split; [apply Document_only_leaves|apply Document_perm_leaves].
Qed.

Lemma constituents_yield_leaves_witness :
  let the_office :=
    NP empty_base (set_head_slot (Some (mk_String "office")) empty_slots)
       (Some (mk_String "the")) in
  let T :=
    Clause empty_base empty_slots (Some (mk_String "Roman"))
      (Some (mk_VP "be" [PElem (Phrase PP empty_base
         (add_complement [PElem the_office]
            (set_head_slot (Some (mk_String "in")) empty_slots)))])) in
  let m := mkMessage Elaboration (Some T) [mk_String "today"] in
  let p := mkParagraph [m] in
  let s := mkSection (mk_String "Whereabouts") [p] in
  let d := mkDocument (mk_String "Report") [s] in
  (clause_heads_absent T = true ∧ constituents T ≡ₚ leaves T) ∧
  (Message_plain m = true ∧ Message_constituents m ≡ₚ Message_leaves m) ∧
  (Paragraph_plain p = true ∧
   Paragraph_constituents p ≡ₚ Paragraph_leaves p) ∧
  (Section_plain s = true ∧ Section_constituents s ≡ₚ Section_leaves s) ∧
  (Document_plain d = true ∧ Document_constituents d ≡ₚ Document_leaves d).
Proof.
  intros the_office T m p s d.
  destruct (constituents_yield_leaves T m p s d)
    as ((_ & HT) & (_ & Hm) & (_ & Hp) & (_ & Hs) & (_ & Hd)).
  repeat split.
  - apply HT. reflexivity.
  - apply Hm. reflexivity.
  - apply Hp. reflexivity.
  - apply Hs. reflexivity.
  - apply Hd. reflexivity.
Defined.

(** C2, as stated, fails: a document whose title is a noun phrase yields
    that phrase node, and a clause with a head yields nothing for it. *)
Lemma constituents_yield_non_leaf :
  let np := NP empty_base (set_head_slot (Some (mk_String "Report")) empty_slots)
               None in
  let cl := Clause empty_base (set_head_slot (Some (mk_String "so")) empty_slots)
               None None in
  (Document_constituents (mkDocument np []) = [np] ∧ is_leaf np = false) ∧
  (constituents cl = [] ∧ leaves cl = [mk_String "so"]).
Proof. repeat split. Qed.

(** ** The loops of [replace] *)

Section scan_facts.
Variable rep : Element → result (bool * Element).
Variable one : Element.

Lemma scan_not_found i l :
  Forall (goes_past rep one) l → scan rep one i l = Ok (NotFound l).
Proof.
  intros H. revert i. induction H as [|o l [Ho Hr] _ IH]; intros i; cbn.
  - done.
  - rewrite Ho, Hr. cbn. rewrite IH. done.
Qed.

Lemma scan_equal i l1 c l2 :
  Forall (goes_past rep one) l1 → elem_eqb c one = true →
  scan rep one i (l1 ++ c :: l2) = Ok (Equal (i + length l1) (l1 ++ c :: l2)).
Proof.
  intros H Hc. revert i. induction H as [|o l [Ho Hr] _ IH]; intros i; cbn.
  - rewrite Hc. by rewrite Nat.add_0_r.
  - rewrite Ho, Hr. cbn. rewrite IH. cbn. by rewrite Nat.add_succ_r.
Qed.

Lemma scan_inside i l1 c c' l2 :
  Forall (goes_past rep one) l1 → elem_eqb c one = false → rep c = Ok (true, c') →
  scan rep one i (l1 ++ c :: l2) = Ok (Inside (l1 ++ c' :: l2)).
Proof.
  intros H Hc Hr'. revert i. induction H as [|o l [Ho Hr] _ IH]; intros i; cbn.
  - by rewrite Hc, Hr'.
  - rewrite Ho, Hr. cbn. rewrite IH. done.
Qed.

Lemma CC_find_first i l1 c l2 :
  Forall (λ o, elem_eqb o one = false) l1 → elem_eqb c one = true →
  CC_find one i (l1 ++ c :: l2) = Some (i + length l1).
Proof.
  intros H Hc. revert i. induction H as [|o l Ho _ IH]; intros i; cbn.
  - rewrite Hc. by rewrite Nat.add_0_r.
  - rewrite Ho, IH. by rewrite Nat.add_succ_r.
Qed.

Lemma CC_find_none i l :
  Forall (λ o, elem_eqb o one = false) l → CC_find one i l = None.
Proof.
  intros H. revert i. induction H as [|o l Ho _ IH]; intros i; cbn; [done|].
  by rewrite Ho, IH.
Qed.
End scan_facts.

Lemma setitem_middle l1 c l2 a :
  setitem (l1 ++ c :: l2) (length l1) a = Ok (l1 ++ a :: l2).
Proof.
  unfold setitem. rewrite decide_True by (rewrite length_app; simpl; lia).
  f_equal. rewrite insert_app_r_alt by lia. by rewrite Nat.sub_diag.
Qed.

Lemma before_here s order : before s (s :: order) = [].
Proof. cbn. by rewrite decide_True. Qed.

Lemma before_later s s' order :
  s' ≠ s → before s (s' :: order) = s' :: before s order.
Proof. intros. cbn. by rewrite decide_False. Qed.

Ltac compute_before H :=
  repeat (rewrite before_later in H by discriminate);
  rewrite before_here in H.

Section slot_facts.
Variable rep : Element → result (bool * Element).
Variable x y : Element.

Lemma replace_slot_passed (o : option Element) :
  Forall (goes_past rep x) (option_list o) →
  replace_slot rep x (Some y) o = Ok (false, o).
Proof.
  destruct o as [c|]; cbn; [|done].
  intros [[Hc Hr] _]%Forall_cons. by rewrite Hc, Hr.
Qed.

Lemma replace_slot_stops (o : option Element) l1 c c' l2 :
  option_list o = l1 ++ c :: l2 → stops_at rep x y c c' →
  replace_slot rep x (Some y) o = Ok (true, first (l1 ++ c' :: l2)).
Proof.
  destruct o as [c0|]; cbn; [|by destruct l1].
  destruct l1 as [|? [|]]; cbn; try done. intros [= <-] [[Hc ->]|[Hc Hr]].
  - by rewrite Hc.
  - by rewrite Hc, Hr.
Qed.

Lemma scan_stops i l1 c c' l2 :
  Forall (goes_past rep x) l1 → stops_at rep x y c c' →
  (elem_eqb c x = true ∧ c' = y ∧
   scan rep x i (l1 ++ c :: l2) = Ok (Equal (i + length l1) (l1 ++ c :: l2))) ∨
  (elem_eqb c x = false ∧
   scan rep x i (l1 ++ c :: l2) = Ok (Inside (l1 ++ c' :: l2))).
Proof.
  intros Hl1 [[Hc ->]|[Hc Hr]].
  - left. by rewrite scan_equal.
  - right. by rewrite (scan_inside _ _ _ _ _ c').
Qed.
End slot_facts.

Ltac pass_zones :=
  repeat (match goal with
    | H : Forall (goes_past ?rep ?x) ?l |- context [scan ?rep ?x ?i ?l] =>
        rewrite (scan_not_found rep x i l H)
    | H : Forall (goes_past ?rep ?x) (option_list ?o)
      |- context [replace_slot ?rep ?x (Some ?y) ?o] =>
        rewrite (replace_slot_passed rep x y o H)
    end; cbn).

Section Phrase_replace_facts.
Variable rep : Element → result (bool * Element).
Variable x y : Element.

Lemma Phrase_replace_passed (p : Slots Element) :
  Forall (λ s, Forall (goes_past rep x) (slots_zone p s)) Phrase_order →
  Phrase_replace rep x (Some y) p = Ok (false, p).
Proof.
  destruct p as [df fm pm h c po]. unfold Phrase_order. cbn.
  intros H. repeat (apply Forall_cons in H as [? H]). cbn in *.
  pass_zones. done.
Qed.

Lemma Phrase_replace_stops (p : Slots Element) s l1 c c' l2 :
  s ∈ Phrase_order →
  slots_zone p s = l1 ++ c :: l2 →
  Forall (λ s', Forall (goes_past rep x) (slots_zone p s'))
         (before s Phrase_order) →
  Forall (goes_past rep x) l1 →
  stops_at rep x y c c' →
  (s = Post → elem_eqb c x = false) →
  Phrase_replace rep x (Some y) p
    = Ok (true, set_slots_zone p s (l1 ++ c' :: l2)).
Proof.
  destruct p as [df fm pm h co po]. unfold Phrase_order.
  intros Hin Hz Hb Hl1 Hst Hpost.
  destruct s;
    try (by apply list_elem_of_In in Hin; cbn in Hin; intuition discriminate);
    cbn in Hz |- *; compute_before Hb;
    repeat (apply Forall_cons in Hb as [? Hb]); cbn in *.
  all: pass_zones.
  - subst fm. destruct (scan_stops rep x y 0 l1 c c' l2 Hl1 Hst)
      as [(_ & -> & ->)|[_ ->]]; cbn; [|reflexivity].
    by rewrite setitem_middle.
  - subst pm. destruct (scan_stops rep x y 0 l1 c c' l2 Hl1 Hst)
      as [(_ & -> & ->)|[_ ->]]; cbn; [|reflexivity].
    by rewrite setitem_middle.
  - by rewrite (replace_slot_stops _ _ _ _ l1 c c' l2).
  - subst co. destruct (scan_stops rep x y 0 l1 c c' l2 Hl1 Hst)
      as [(_ & -> & ->)|[_ ->]]; cbn; [|reflexivity].
    by rewrite setitem_middle.
  - subst po. destruct (scan_stops rep x y 0 l1 c c' l2 Hl1 Hst)
      as [(Hc & _)|[_ ->]]; cbn; [|reflexivity].
    by rewrite Hpost in Hc.
Qed.
End Phrase_replace_facts.

Ltac in_order :=
  match goal with
  | |- _ ∈ _ => unfold Phrase_order; apply list_elem_of_In; cbn; tauto
  end.

Ltac all_before :=
  match goal with
  | |- Forall _ (before _ _) =>
      unfold Phrase_order;
      repeat (rewrite before_later by discriminate);
      rewrite before_here;
      repeat (apply List.Forall_cons; [assumption|]); apply List.Forall_nil
  end.

Lemma replace_first_stop (T x y : Element) (s : slot)
    (l1 : list Element) (c c' : Element) (l2 : list Element) :
  s ∈ replace_order T →
  zone T s = l1 ++ c :: l2 →
  Forall (λ s', Forall (passed T x y) (zone T s')) (before s (replace_order T)) →
  Forall (passed T x y) l1 →
  taken T x y c c' →
  (s = Post → elem_eqb c x = false) →
  replace T x (Some y) = Ok (true, set_zone T s (l1 ++ c' :: l2)).
Proof.
  intros Hin Hz Hb Hl1 Ht Hpost.
  destruct T as [| | |b p subj vp|b p spec|k b p|b coords];
    unfold passed, taken in *; cbn [descends replace_order] in *;
    destruct s;
    try (by apply list_elem_of_In in Hin; cbn in Hin; intuition discriminate);
    compute_before Hb; repeat (apply Forall_cons in Hb as [? Hb]);
    cbn [zone] in *; cbn [replace]; pass_zones.
  all: try (match goal with
            | Hz : option_list ?o = ?l1 ++ ?c :: ?l2,
              Ht : stops_at _ ?x ?y ?c ?c'
              |- context [replace_slot _ _ _ ?o] =>
                rewrite (replace_slot_stops _ x y o l1 c c' l2 Hz Ht);
                reflexivity
            end).
  all: try (match goal with
            | Hin : ?s ∈ _, Hz : _ = ?l1 ++ ?c :: ?l2,
              Ht : stops_at _ ?x ?y ?c ?c'
              |- context [Phrase_replace _ _ _ ?p] =>
                rewrite (Phrase_replace_stops _ x y p s l1 c c' l2);
                [reflexivity|in_order|assumption|all_before
                |assumption|assumption|assumption]
            end).
  (* the coordinates of a CC *)
  destruct Ht as [Hc ->]. unfold CC_replace. subst coords.
  rewrite CC_find_first by done. cbn. by rewrite setitem_middle.
Qed.

Lemma replace_all_passed (T x y : Element) :
  Forall (λ s, Forall (passed T x y) (zone T s)) (replace_order T) →
  replace T x (Some y) = Ok (false, T).
Proof.
  intros H.
  destruct T as [| | |b p subj vp|b p spec|k b p|b coords];
    unfold passed in *; cbn [descends replace_order] in *; try done;
    repeat (apply Forall_cons in H as [? H]); cbn [zone] in *; cbn [replace];
    pass_zones.
  1-3: rewrite Phrase_replace_passed; [done|];
       unfold Phrase_order; repeat (apply List.Forall_cons; [assumption|]);
       apply List.Forall_nil.
  unfold CC_replace. by rewrite CC_find_none.
Qed.

Lemma constituents_in_order (T : Element) :
  constituents T =
    if is_leaf T then [T]
    else flat_map (λ s, flat_map constituents (zone T s)) (constituents_order T).
Proof.
  destruct T as [| | |b p subj vp|b p spec|k b p|b coords]; cbn;
    rewrite ?flat_map_option_list, ?app_nil_r; done.
Qed.

(** C4 (as amended): for a replacement that is not absent, [replace] goes
    through the places of a node in the order [replace_order] -- for a
    clause: subject, verb phrase, front-modifiers, pre-modifiers, head,
    complements, post-modifiers, whereas [constituents] goes front-modifiers,
    subject, pre-modifiers, verb phrase, complements, post-modifiers; for a
    noun phrase and the other phrases, the order of [constituents]; for a
    coordination, its coordinates -- and through the children of a place
    from first to last.  It stops at the first child that equals the
    target, putting the replacement in its place, or, except among the
    coordinates of a [CC], at the first child on which the recursive call
    succeeds, and returns [True]; children gone past are left as they
    were, and when every child is gone past it returns [False] and the
    node is unchanged.  What happens at a post-modifier equal to the target
    is left out. *)
Theorem replace_scan_order (T x y : Element) (s : slot)
    (l1 : list Element) (c c' : Element) (l2 : list Element) :
  (s ∈ replace_order T →
   zone T s = l1 ++ c :: l2 →
   Forall (λ s', Forall (passed T x y) (zone T s'))
          (before s (replace_order T)) →
   Forall (passed T x y) l1 →
   taken T x y c c' →
   (s = Post → elem_eqb c x = false) →
   replace T x (Some y) = Ok (true, set_zone T s (l1 ++ c' :: l2))) ∧
  (Forall (λ s', Forall (passed T x y) (zone T s')) (replace_order T) →
   replace T x (Some y) = Ok (false, T)) ∧
  constituents T =
    (if is_leaf T then [T]
     else flat_map (λ s, flat_map constituents (zone T s))
                   (constituents_order T)).
Proof.
  split; [|split].
  - apply replace_first_stop.
  - apply replace_all_passed.
  - apply constituents_in_order.
Qed.

Lemma replace_scan_order_witness :
  let a := mk_String "a" in
  let b := mk_String "b" in
  let John := mk_String "John" in
  let vp := mk_VP "sees" [PElem a] in
  let vp' := mk_VP "sees" [PElem b] in
  let T := Clause empty_base empty_slots (Some John) (Some vp) in
  let U := Clause empty_base empty_slots (Some John) None in
  replace T a (Some b) = Ok (true, Clause empty_base empty_slots (Some John) (Some vp')) ∧
  replace U a (Some b) = Ok (false, U).
Proof.
  intros a b John vp vp' T U. split.
  - apply (proj1 (replace_scan_order T a b Vp [] vp vp' [])).
    + apply list_elem_of_In. cbn. tauto.
    + reflexivity.
    + unfold T. cbn [replace_order].
      rewrite before_later by discriminate. rewrite before_here.
      repeat constructor.
    + constructor.
    + right. split; reflexivity.
    + discriminate.
  - apply (proj1 (proj2 (replace_scan_order U a b Vp [] vp vp' []))).
    unfold U. cbn [replace_order]. repeat constructor.
Defined.

(** C4, as stated, fails: in a clause whose front-modifier and subject both
    equal the target, [constituents] yields the front-modifier first, and
    [replace] replaces the subject and leaves the front-modifier. *)
Lemma replace_not_in_constituents_order :
  let a := mk_String "a" in
  let b := mk_String "b" in
  let T := Clause empty_base (set_front_modifier [a] empty_slots) (Some a) None in
  constituents T = [a; a] ∧
  before Front (constituents_order T) = [] ∧
  zone T Front = [a] ∧
  replace T a (Some b) = Ok (true, set_zone T Subj [b]) ∧
  replace T a (Some b) ≠ Ok (true, set_zone T Front [b]) ∧
  constituents (set_zone T Subj [b]) = [a; b].
Proof. repeat split. discriminate. Qed.

(** ** Replacement and constituents *)

Lemma Element_zone_ind (P : Element → Prop) :
  (∀ T, (∀ s, Forall P (zone T s)) → P T) → ∀ T, P T.
Proof.
  intros H T.
  induction T as [| | |b p subj vp IHp IHs IHvp|b p spec IHp IHs|k b p IHp
                 |b coords IHc] using Element_nested_ind; apply H; intros s.
  all: try destruct IHp as (IHfm & IHpm & IHh & IHc & IHpo).
  all: destruct s; cbn; try done.
  all: match goal with
       | |- Forall _ (option_list ?o) => destruct o; cbn in *; by repeat constructor
       end.
Qed.

Lemma existsb_option_list {A : Type} (f : A → bool) (o : option A) :
  existsb f (option_list o) = opt_existsb f o.
Proof. destruct o; cbn; [apply orb_false_r|done]. Qed.

Lemma occurs_zones (T x : Element) :
  occurs T x = existsb (λ s, existsb (reached T x) (zone T s)) (replace_order T).
Proof.
  destruct T as [| | |b p subj vp|b p spec|k b p|b coords]; cbn; try done.
  all: unfold slots_existsb, reached; cbn.
  all: rewrite ?existsb_option_list, ?orb_false_r, ?orb_assoc; done.
Qed.

Lemma first_hit {A : Type} (h : A → bool) (l : list A) :
  existsb h l = true →
  ∃ l1 c l2, l = l1 ++ c :: l2 ∧ Forall (λ o, h o = false) l1 ∧ h c = true.
Proof.
  induction l as [|o l IH]; cbn; [done|].
  destruct (h o) eqn:E; cbn.
  - intros _. by exists [], o, l.
  - intros (l1 & c & l2 & -> & Hl1 & Hc)%IH.
    exists (o :: l1), c, l2. by repeat constructor.
Qed.

Lemma no_hit {A : Type} (h : A → bool) (l : list A) :
  existsb h l = false → Forall (λ o, h o = false) l.
Proof.
  induction l as [|o l IH]; cbn; [constructor|].
  intros [Ho Hl]%orb_false_iff. constructor; auto.
Qed.

Lemma first_zone (h : Element → bool) (z : slot → list Element) order :
  existsb (λ s, existsb h (z s)) order = true →
  ∃ s l1 c l2,
    s ∈ order ∧ z s = l1 ++ c :: l2 ∧
    Forall (λ s', Forall (λ o, h o = false) (z s')) (before s order) ∧
    Forall (λ o, h o = false) l1 ∧ h c = true.
Proof.
  induction order as [|s0 order IH]; cbn; [done|].
  destruct (existsb h (z s0)) eqn:E; cbn.
  - intros _. apply first_hit in E as (l1 & c & l2 & Hz & Hl1 & Hc).
    exists s0, l1, c, l2. rewrite decide_True by done.
    repeat split; try done. apply list_elem_of_here.
  - intros (s & l1 & c & l2 & Hin & Hz & Hb & Hl1 & Hc)%IH.
    exists s, l1, c, l2. repeat split; try done.
    + by apply list_elem_of_further.
    + destruct (decide (s0 = s)); constructor; [by apply no_hit|done].
Qed.

Lemma all_zones_no_hit (h : Element → bool) (z : slot → list Element) order :
  existsb (λ s, existsb h (z s)) order = false →
  Forall (λ s, Forall (λ o, h o = false) (z s)) order.
Proof.
  induction order as [|s0 order IH]; cbn; [constructor|].
  intros [H0 H]%orb_false_iff. constructor; [by apply no_hit|auto].
Qed.

(** A child out of reach is gone past. *)
Lemma not_reached_passed (T x y o : Element) :
  (occurs o x = false → replace o x (Some y) = Ok (false, o)) →
  reached T x o = false → passed T x y o.
Proof.
  unfold reached, passed. destruct (descends T); [|done].
  intros IH [Ho Hocc]%orb_false_iff. split; auto.
Qed.

Lemma Forall_impl2 {A : Type} (P Q R : A → Prop) (l : list A) :
  Forall P l → Forall Q l → (∀ o, P o → Q o → R o) → Forall R l.
Proof.
  intros HP HQ H. induction HP as [|o l Ho _ IH]; [constructor|].
  apply Forall_cons in HQ as [? ?]. constructor; auto.
Qed.

Lemma replace_absent (T x y : Element) :
  occurs T x = false → replace T x (Some y) = Ok (false, T).
Proof.
  induction T as [T IH] using Element_zone_ind.
  rewrite occurs_zones. intros H%all_zones_no_hit.
  apply replace_all_passed.
  apply Forall_forall. intros s Hs.
  rewrite Forall_forall in H. specialize (H s Hs).
  apply (Forall_impl2 _ _ _ _ (IH s) H). intros o IHo Ho.
  by apply not_reached_passed.
Qed.

Lemma forallb_Forall {A : Type} (f : A → bool) (l : list A) :
  forallb f l = true → Forall (λ o, f o = true) l.
Proof.
  induction l as [|o l IH]; cbn; [constructor|].
  intros [? ?]%andb_true_iff. constructor; auto.
Qed.

Lemma opt_forallb_Forall {A : Type} (f : A → bool) (o : option A) :
  opt_forallb f o = true → Forall (λ o, f o = true) (option_list o).
Proof. destruct o; cbn; by repeat constructor. Qed.

Ltac zone_facts :=
  unfold slots_forallb in *; split_andb;
  first [ done
        | by apply forallb_Forall
        | by apply opt_forallb_Forall
        | by apply Forall_nil ].

Lemma heads_absent_zone (T : Element) (s : slot) :
  clause_heads_absent T = true →
  Forall (λ o, clause_heads_absent o = true) (zone T s).
Proof.
  destruct T as [| | |b p subj vp|b p spec|k b p|b coords]; destruct s; cbn;
    intros H; zone_facts.
Qed.

Lemma post_clear_zone (T x : Element) (s : slot) :
  descends T = true → post_clear T x = true →
  Forall (λ o, post_clear o x = true) (zone T s).
Proof.
  destruct T as [| | |b p subj vp|b p spec|k b p|b coords]; destruct s; cbn;
    intros Hd H; try discriminate; zone_facts.
Qed.

Lemma post_clear_post (T x : Element) :
  post_clear T x = true → Forall (λ o, elem_eqb o x = false) (zone T Post).
Proof.
  assert (∀ l, forallb (λ o, negb (elem_eqb o x)) l = true →
               Forall (λ o, elem_eqb o x = false) l) as Hl.
  { intros l H%forallb_Forall. eapply Forall_impl; [exact H|].
    intros o Ho. by apply negb_true_iff. }
  destruct T as [| | |b p subj vp|b p spec|k b p|b coords]; cbn;
    intros H; try (by constructor); split_andb; by apply Hl.
Qed.

Lemma heads_absent_shown (T : Element) (s : slot) l1 c l2 :
  clause_heads_absent T = true → s ∈ replace_order T →
  zone T s = l1 ++ c :: l2 → s ∈ constituents_order T.
Proof.
  intros Hh Hin Hz. apply list_elem_of_In. apply list_elem_of_In in Hin.
  destruct T as [| | |b p subj vp|b p spec|k b p|b coords]; cbn in *;
    try tauto.
  destruct Hin as [<-|[<-|[<-|[<-|[<-|[<-|[<-|[]]]]]]]]; try tauto.
  split_andb. cbn in Hz.
  match goal with H : head p = None |- _ => rewrite H in Hz end.
  by destruct l1.
Qed.

Section in_context_facts.
Variable X Y : list Element.

Lemma in_context_refl : in_context X Y X Y.
Proof. exists [], []. by rewrite !app_nil_r. Qed.

Lemma in_context_app_l P L L' :
  in_context X Y L L' → in_context X Y (P ++ L) (P ++ L').
Proof.
  intros (A & B & -> & ->). exists (P ++ A), B. by rewrite <- !app_assoc.
Qed.

Lemma in_context_app_r S L L' :
  in_context X Y L L' → in_context X Y (L ++ S) (L' ++ S).
Proof.
  intros (A & B & -> & ->). exists A, (B ++ S). by rewrite <- !app_assoc.
Qed.
End in_context_facts.

Lemma constituents_set_zone (T : Element) (s : slot) l1 c c' l2 X Y :
  s ∈ constituents_order T →
  zone T s = l1 ++ c :: l2 →
  in_context X Y (constituents c) (constituents c') →
  in_context X Y (constituents T)
                 (constituents (set_zone T s (l1 ++ c' :: l2))).
Proof.
  intros Hin Hz Hc.
  destruct T as [| | |b p subj vp|b p spec|k b p|b coords]; destruct s;
    try (by apply list_elem_of_In in Hin; cbn in Hin; intuition discriminate);
    try destruct p as [df fm pm h co po]; cbn in Hz.
  all: try match type of Hz with
       | option_list ?o = _ =>
           destruct o; [|by destruct l1];
           destruct l1 as [|? [|]]; try done; injection Hz as <- <-
       end.
  all: try subst; cbn; rewrite ?flat_map_app; cbn [flat_map].
  all: repeat first [ assumption
                    | apply in_context_app_l
                    | apply in_context_app_r ].
Qed.

Lemma Forall_middle {A : Type} (P : A → Prop) l1 c l2 :
  Forall P (l1 ++ c :: l2) → P c.
Proof. intros [_ [? _]%Forall_cons]%Forall_app. done. Qed.

Lemma replace_present (T x y : Element) :
  clause_heads_absent T = true → post_clear T x = true →
  occurs T x = true →
  ∃ T', replace T x (Some y) = Ok (true, T') ∧
        in_context (constituents x) (constituents y)
                   (constituents T) (constituents T').
Proof.
  induction T as [T IH] using Element_zone_ind. intros Hh Hp Ho.
  rewrite occurs_zones in Ho.
  apply first_zone in Ho as (s & l1 & c & l2 & Hin & Hz & Hb & Hl1 & Hc).
  assert (∀ l, Forall (λ o, reached T x o = false) l →
               Forall (passed T x y) l) as Hpass.
  { intros l Hl. eapply Forall_impl; [exact Hl|]. intros o.
    apply not_reached_passed, replace_absent. }
  assert (∃ c', taken T x y c c' ∧
                in_context (constituents x) (constituents y)
                           (constituents c) (constituents c'))
    as (c' & Ht & Hctx).
  { unfold reached, taken in *. destruct (descends T) eqn:Hd.
    - destruct (elem_eqb c x) eqn:E.
      + exists y. split; [by left|].
        apply elem_eqb_eq in E as ->. apply in_context_refl.
      + cbn in Hc.
        pose proof (Forall_middle _ _ _ _
                      (eq_ind _ (Forall _) (IH s) _ Hz)) as IHc.
        pose proof (Forall_middle _ _ _ _
                      (eq_ind _ (Forall _) (heads_absent_zone T s Hh) _ Hz))
          as Hhc.
        pose proof (Forall_middle _ _ _ _
                      (eq_ind _ (Forall _) (post_clear_zone T x s Hd Hp) _ Hz))
          as Hpc.
        destruct (IHc Hhc Hpc Hc) as (c' & Hr & Hctx).
        exists c'. split; [by right|done].
    - cbn in Hc. exists y. split; [done|].
      apply elem_eqb_eq in Hc as ->. apply in_context_refl. }
  exists (set_zone T s (l1 ++ c' :: l2)). split.
  - apply (replace_first_stop T x y s l1 c c' l2); try done.
    + eapply Forall_impl; [exact Hb|]. intros s'. apply Hpass.
    + by apply Hpass.
    + intros ->. pose proof (post_clear_post T x Hp) as Hpost.
      rewrite Hz in Hpost. by apply Forall_middle in Hpost.
  - apply (constituents_set_zone T s l1 c c' l2); [|done|done].
    by apply (heads_absent_shown T s l1 c l2).
Qed.

(** C1 (as amended): let the replacement [y] not be absent.  When [x] is
    out of reach of [replace] in [T] -- it equals no child of [T] or of a
    phrase below [T], a coordination offering its coordinates and nothing
    below them, and [T] itself not being a child -- [replace] returns
    [False] and [T] is unchanged.  When [x] is within reach, no clause of
    [T] has its head slot filled, and no post-modifier equals [x],
    [replace] returns [True], and the constituents of [T] afterwards are
    those before with the constituents of [y] where one occurrence of
    the constituents of [x] stood. *)
Theorem replace_then_constituents (T x y : Element) :
  (occurs T x = false → replace T x (Some y) = Ok (false, T)) ∧
  (clause_heads_absent T = true → post_clear T x = true →
   occurs T x = true →
   ∃ T' l1 l2,
     replace T x (Some y) = Ok (true, T') ∧
     constituents T = l1 ++ constituents x ++ l2 ∧
     constituents T' = l1 ++ constituents y ++ l2).
Proof.
  split.
  - apply replace_absent.
  - intros Hh Hp Ho.
    destruct (replace_present T x y Hh Hp Ho) as (T' & Hr & l1 & l2 & H1 & H2).
    by exists T', l1, l2.
Qed.

Lemma replace_then_constituents_witness :
  let the := mk_String "the" in
  let piano := mk_String "piano" in
  let drum := mk_String "drum" in
  let truck := mk_String "truck" in
  let np := λ n, NP empty_base (set_head_slot (Some n) empty_slots) (Some the) in
  let T := λ n, Clause empty_base empty_slots (Some (mk_String "we"))
                  (Some (mk_VP "play" [PElem (np n)])) in
  (occurs (T piano) truck = false ∧
   replace (T piano) truck (Some drum) = Ok (false, T piano)) ∧
  (clause_heads_absent (T piano) = true ∧ post_clear (T piano) piano = true ∧
   occurs (T piano) piano = true ∧
   ∃ T' l1 l2,
     replace (T piano) piano (Some drum) = Ok (true, T') ∧
     constituents (T piano) = l1 ++ constituents piano ++ l2 ∧
     constituents T' = l1 ++ constituents drum ++ l2).
Proof.
  intros the piano drum truck np T. split.
  - split; [reflexivity|].
    apply (proj1 (replace_then_constituents (T piano) truck drum)).
    reflexivity.
  - split; [reflexivity|]. split; [reflexivity|]. split; [reflexivity|].
    apply (proj2 (replace_then_constituents (T piano) piano drum));
      reflexivity.
Defined.

(** C1, as stated, fails: a leaf is the one constituent of itself, yet
    [replace] on it returns [False]; and a string inside a noun phrase
    that is a coordinate is a constituent of the coordination, yet
    [replace] on the coordination returns [False]. *)
Lemma replace_misses_constituent :
  let a := mk_String "a" in
  let b := mk_String "b" in
  let cc := mk_CC [PElem (NP empty_base (set_head_slot (Some a) empty_slots) None)]
                  "and" in
  (a ∈ constituents a ∧ replace a a (Some b) = Ok (false, a)) ∧
  (a ∈ constituents cc ∧ replace cc a (Some b) = Ok (false, cc)).
Proof.
  cbn. repeat split; apply list_elem_of_here.
Qed.

(** ** The JSON round trip *)

Lemma dumps_follows_dict (e : Element) :
  dumps e = JObj [("__class__", JStr (class_tag (class_of e)));
                  ("__value__", JObj (dumps_dict dumps (__dict__ e)))].
Proof.
  destruct e; cbn; unfold dumps_dict; by rewrite ?map_app.
Qed.

Lemma assoc_fresh {V : Type} (k : string) (d : list (string * V)) :
  k ∉ map fst d → assoc k d = None.
Proof.
  induction d as [|[k' v] d IH]; cbn; [done|].
  intros H. apply not_elem_of_cons in H as [Hk Hd].
  apply String.eqb_neq in Hk as ->. auto.
Qed.

Lemma dict_set_fresh (k : string) (v : pyval) (d : list (string * pyval)) :
  k ∉ map fst d → dict_set k v d = d ++ [(k, v)].
Proof.
  induction d as [|[k' v'] d IH]; cbn; [done|].
  intros H. apply not_elem_of_cons in H as [Hk Hd].
  apply String.eqb_neq in Hk as ->. by rewrite IH.
Qed.

Lemma mkdict_distinct (items : list (string * pyval)) :
  NoDup (map fst items) → mkdict items = items.
Proof.
  unfold mkdict. change items with ([] ++ items) at 1 3.
  generalize (@nil (string * pyval)) as d.
  induction items as [|[k v] items IH]; intros d; cbn.
  - by rewrite app_nil_r.
  - intros H. rewrite dict_set_fresh.
    + rewrite (IH (d ++ [(k, v)])).
      * by rewrite <- app_assoc.
      * by rewrite <- app_assoc.
    + rewrite map_app in H. cbn in H. apply NoDup_app in H as (_ & H & _).
      intros Hk. apply (H k Hk). apply list_elem_of_here.
Qed.

Lemma loads_features (fs : gmap string string) :
  fs !! "__class__" = None → loads (dumps_features fs) = Ok (py_features fs).
Proof.
  intros Hfs. unfold dumps_features, py_features. cbn [loads].
  assert (∀ l : list (string * string),
            loads_members loads (map (λ kv, (kv.1, JStr kv.2)) l)
              = Ok (map (λ kv, (kv.1, PyStr kv.2)) l)) as ->.
  { induction l as [|[k v] l IH]; cbn; [done|]. by rewrite IH. }
  cbn. rewrite mkdict_distinct.
  - unfold from_json. rewrite assoc_fresh; [done|].
    rewrite map_map. cbn. intros ([k v] & Hk & Hin)%list_elem_of_fmap.
    apply elem_of_map_to_list in Hin. cbn in Hk. subst k. congruence.
  - rewrite map_map. cbn. apply NoDup_fst_map_to_list.
Qed.

Lemma as_features_py (fs : gmap string string) :
  as_features (py_features fs) = Some fs.
Proof.
  unfold as_features, py_features.
  assert (∀ l : list (string * string),
            as_strs (map (λ kv, (kv.1, PyStr kv.2)) l) = Some l) as ->.
  { induction l as [|[k v] l IH]; cbn; [done|]. by rewrite IH. }
  cbn. by rewrite list_to_map_to_list.
Qed.

Lemma loads_elems (l : list Element) :
  Forall comes_back l → loads (JArr (map dumps l)) = Ok (py_elems l).
Proof.
  intros H. cbn [loads]. unfold py_elems.
  assert (loads_array loads (map dumps l) = Ok (map PyElem l)) as ->; [|done].
  induction H as [|e l He _ IH]; cbn; [done|]. by rewrite He, IH.
Qed.

Lemma as_elems_py (l : list Element) : as_elems (py_elems l) = Some l.
Proof.
  unfold as_elems, py_elems. induction l as [|e l IH]; cbn; [done|].
  by rewrite IH.
Qed.

Lemma loads_attr (v : attr_value) :
  attr_comes_back v → loads (dumps_attr dumps v) = Ok (py_attr v).
Proof.
  destruct v as [[| |]| |[|]| |[e|]|l]; cbn [attr_comes_back dumps_attr];
    try done.
  - apply loads_features.
  - apply loads_elems.
Qed.

Lemma loads_dict (d : list (string * attr_value)) :
  Forall (λ kv, attr_comes_back (snd kv)) d →
  loads_members loads (dumps_dict dumps d) = Ok (py_dict d).
Proof.
  induction 1 as [|[k v] d Hv _ IH]; cbn; [done|].
  rewrite loads_attr by done. cbn.
  unfold dumps_dict in IH. by rewrite IH.
Qed.

Lemma find_class (e : Element) :
  List.find (is_class (PyStr (class_tag (class_of e)))) known_classes
    = Some (class_of e).
Proof. destruct e as [| | | | |[]|]; reflexivity. Qed.

Lemma dict_has_no_class (e : Element) :
  assoc "__class__" (py_dict (__dict__ e)) = None.
Proof. destruct e; reflexivity. Qed.

Lemma dict_keys_distinct (e : Element) :
  NoDup (map fst (py_dict (__dict__ e))).
Proof.
  destruct e; cbn; apply NoDup_ListNoDup;
    repeat (constructor; [cbn; intuition discriminate|]); constructor.
Qed.

Lemma as_id_py (i : pyid) : as_id (py_attr (AId i)) = Some i.
Proof. by destruct i. Qed.

Lemma as_optstr_py (s : option string) :
  as_optstr (py_attr (AOptStr s)) = Some s.
Proof. by destruct s. Qed.

Lemma as_elem_py (o : option Element) : as_elem (py_attr (AElem o)) = Some o.
Proof. by destruct o. Qed.

Lemma as_str_py (s : string) : as_str (py_attr (AStr s)) = Some s.
Proof. done. Qed.

Lemma as_features_py_attr (fs : gmap string string) :
  as_features (py_attr (AFeatures fs)) = Some fs.
Proof. apply as_features_py. Qed.

Lemma as_elems_py_attr (l : list Element) :
  as_elems (py_attr (AElems l)) = Some l.
Proof. apply as_elems_py. Qed.

Lemma as_element_dict (e : Element) :
  as_element (class_of e) (py_dict (__dict__ e)) = Some e.
Proof.
  destruct e as [[i fs] val|[i fs] word pos|[i fs] value
                |[i fs] [df fm pm h co po] subj vp
                |[i fs] [df fm pm h co po] spec
                |k [i fs] [df fm pm h co po]|[i fs] coords];
    try destruct k.
  all: unfold as_element, as_phrase_kind, as_base, as_slots, field;
    cbn [class_of py_dict __dict__ Element__dict__ Phrase__dict__ map app
         fst snd assoc String.eqb Ascii.eqb Bool.eqb base id _features
         visitor_name phrase_type discourse_fn front_modifier pre_modifier
         head complement post_modifier length].
  all: repeat (cbn [mbind option_bind];
               rewrite ?as_id_py, ?as_str_py, ?as_optstr_py, ?as_elem_py,
                       ?as_features_py_attr, ?as_elems_py_attr,
                       ?String.eqb_refl, ?Nat.eqb_refl).
  all: reflexivity.
Qed.

Lemma loads_value (e : Element) :
  Forall (λ kv, attr_comes_back (snd kv)) (__dict__ e) →
  loads (JObj (dumps_dict dumps (__dict__ e)))
    = Ok (PyDict (py_dict (__dict__ e))).
Proof.
  intros H. cbn [loads]. rewrite loads_dict by done.
  cbn [mbind result_bind]. rewrite mkdict_distinct by apply dict_keys_distinct.
  unfold from_json. by rewrite dict_has_no_class.
Qed.

Lemma loads_object (e : Element) :
  Forall (λ kv, attr_comes_back (snd kv)) (__dict__ e) → comes_back e.
Proof.
  intros H. unfold comes_back. rewrite dumps_follows_dict.
  remember (JObj (dumps_dict dumps (__dict__ e))) as value eqn:Hvalue.
  cbn [loads loads_members]. subst value. rewrite loads_value by done.
  cbn [mbind result_bind]. rewrite mkdict_distinct
    by (apply NoDup_ListNoDup; repeat constructor; cbn; intuition discriminate).
  unfold from_json. cbn [assoc String.eqb Ascii.eqb Bool.eqb].
  rewrite find_class. unfold from_dict. by rewrite as_element_dict.
Qed.

Lemma Forall_comes_back (l : list Element) :
  Forall (λ e, no_class_feature e = true → comes_back e) l →
  forallb no_class_feature l = true → Forall comes_back l.
Proof.
  induction 1 as [|e l He _ IH]; cbn; [constructor|].
  intros [? ?]%andb_true_iff. constructor; auto.
Qed.

Lemma OptAll_comes_back (o : option Element) :
  OptAll (λ e, no_class_feature e = true → comes_back e) o →
  opt_forallb no_class_feature o = true → OptAll comes_back o.
Proof. destruct o; cbn; auto. Qed.

Lemma loads_dumps (e : Element) :
  no_class_feature e = true → loads (dumps e) = Ok (PyElem e).
Proof.
  induction e as [b val|b word pos|b value IHv|b p subj vp IHp IHs IHvp
                 |b p spec IHp IHs|k b p IHp|b coords IHc]
    using Element_nested_ind; intros H; apply loads_object.
  all: try destruct IHp as (IHfm & IHpm & IHh & IHc & IHpo).
  all: cbn in H; unfold slots_forallb in H; split_andb.
  all: unfold __dict__, Element__dict__, Phrase__dict__; cbn [app base].
  all: repeat (apply List.Forall_cons; [cbn; trivial|]);
       try apply List.Forall_nil.
  all: by (apply Forall_comes_back || apply OptAll_comes_back).
Qed.

(** C9 (as amended): for every element tree built from the concrete kinds
    none of whose feature maps, those of the values of placeholders
    included, has the key [__class__], decoding the encoding of the tree
    returns an element equal to the tree. *)
Theorem json_round_trip (e : Element) :
  no_class_feature e = true →
  ∃ e', loads (dumps e) = Ok (PyElem e') ∧ elem_eqb e' e = true.
Proof.
  intros H. exists e. split.
  - by apply loads_dumps.
  - by apply elem_eqb_eq.
Qed.

Lemma json_round_trip_witness :
  let the := Word empty_base (Some "the") (Some "DETERMINER") in
  let np := λ n, NP empty_base (set_head_slot (Some (mk_String n)) empty_slots)
                    (Some the) in
  let into := Phrase PP empty_base
                (add_complement [PElem (np "truck")]
                   (set_head_slot (Some (mk_String "into")) empty_slots)) in
  let what := PlaceHolder (mkBase (IdStr "what") ∅) (Some (np "piano")) in
  let objects := CC (mkBase (IdInt 0) {[ "conj" := "and";
                                         "discourseFunction" := "OBJECT" ]})
                    [what; np "drum"] in
  let T := Clause (mkBase (IdInt 0) {[ "FORM" := "IMPERATIVE" ]}) empty_slots
             None (Some (mk_VP "put" [PElem objects; PElem into])) in
  no_class_feature T = true ∧
  ∃ e', loads (dumps T) = Ok (PyElem e') ∧ elem_eqb e' T = true.
Proof.
  intros the np into what objects T.
  split; [reflexivity|]. apply (json_round_trip T). reflexivity.
Defined.

(** C9, as stated, fails: when a feature map has the key [__class__] with the
    tag of a known class as its value, the decoder hands that map to
    [from_json], which takes it for an encoded element and looks up
    [__value__] in it. *)
Lemma json_round_trip_fails :
  let e := String (mkBase (IdInt 0)
                     {[ "__class__" := "<class 'nlg.structures.String'>" ]})
                  "x" in
  loads (dumps e) = Raise KeyError.
Proof. reflexivity. Qed.

(** * Further properties *)

(** ** The feature store, key by key *)

(** X1: a feature just added is there: [get_feature] returns its value,
    [has_feature] is true and [feature] returns the value; adding the
    same feature again overwrites the value. *)
Theorem add_feature_then_lookup (feat value value' : string)
    (fs : gmap string string) :
  get_feature feat (add_feature feat value fs) = Ok value ∧
  has_feature feat (add_feature feat value fs) = true ∧
  feature feat (add_feature feat value fs) = Some value ∧
  add_feature feat value' (add_feature feat value fs)
    = add_feature feat value' fs.
Proof.
  unfold get_feature, feature, has_feature, add_feature.
  rewrite lookup_insert_eq, bool_decide_true by done.
  repeat split. apply insert_insert_eq.
Qed.

(** X2: for a feature the element does not have, [get_feature] raises
    [KeyError], [feature] returns [None], and [del_feature] changes
    nothing, with or without a value. *)
Theorem missing_feature (feat : string) (val : option string)
    (fs : gmap string string) :
  has_feature feat fs = false →
  get_feature feat fs = Raise KeyError ∧
  feature feat fs = None ∧
  del_feature feat val fs = fs.
Proof.
  unfold get_feature, feature, del_feature, has_feature. intros H.
  apply bool_decide_eq_false in H. rewrite <- eq_None_not_Some in H.
  rewrite H. rewrite bool_decide_false; [done|].
  by rewrite <- eq_None_not_Some.
Qed.

Lemma missing_feature_witness :
  has_feature "TENSE" ∅ = false ∧
  get_feature "TENSE" ∅ = Raise KeyError ∧
  feature "TENSE" ∅ = None ∧
  del_feature "TENSE" (Some "PAST") ∅ = ∅.
Proof.
  split; [reflexivity|]. apply (missing_feature "TENSE" (Some "PAST") ∅).
  reflexivity.
Defined.

(** X3: adding or deleting one feature leaves every other feature as it
    was. *)
Theorem other_features_untouched (feat other value : string)
    (val : option string) (fs : gmap string string) :
  other ≠ feat →
  get_feature other (add_feature feat value fs) = get_feature other fs ∧
  get_feature other (del_feature feat val fs) = get_feature other fs ∧
  has_feature other (del_feature feat val fs) = has_feature other fs.
Proof.
  intros Hne.
  assert (del_feature feat val fs !! other = fs !! other) as Hdel.
  { unfold del_feature. destruct (fs !! feat); [|done].
    repeat case_bool_decide; by rewrite ?lookup_delete_ne. }
  unfold get_feature, has_feature, add_feature.
  rewrite Hdel. by rewrite lookup_insert_ne.
Qed.

Lemma other_features_untouched_witness :
  let fs : gmap string string := {[ "TENSE" := "PAST"; "FORM" := "GERUND" ]} in
  "FORM" ≠ "TENSE" ∧
  get_feature "FORM" (add_feature "TENSE" "FUTURE" fs) = get_feature "FORM" fs ∧
  get_feature "FORM" (del_feature "TENSE" (Some "PAST") fs)
    = get_feature "FORM" fs ∧
  has_feature "FORM" (del_feature "TENSE" (Some "PAST") fs)
    = has_feature "FORM" fs.
Proof.
  intros fs. split; [discriminate|].
  apply (other_features_untouched "TENSE" "FORM" "FUTURE" (Some "PAST") fs).
  discriminate.
Defined.

(** ** Equality *)

(** X4: on the concrete kinds [==] is an equivalence relation: reflexive,
    symmetric and transitive. *)
Theorem elem_eqb_equivalence (x y z : Element) :
  elem_eqb x x = true ∧
  elem_eqb x y = elem_eqb y x ∧
  (elem_eqb x y = true → elem_eqb y z = true → elem_eqb x z = true).
Proof.
  split; [by apply elem_eqb_eq|]. split.
  - destruct (elem_eqb x y) eqn:Hxy, (elem_eqb y x) eqn:Hyx; try done.
    + apply elem_eqb_eq in Hxy as ->. by rewrite (proj2 (elem_eqb_eq y y)) in Hyx.
    + apply elem_eqb_eq in Hyx as ->. by rewrite (proj2 (elem_eqb_eq x x)) in Hxy.
  - intros ->%elem_eqb_eq ->%elem_eqb_eq. by apply elem_eqb_eq.
Qed.

Lemma elem_eqb_equivalence_witness :
  let a := mk_String "a" in
  let np := NP empty_base (set_head_slot (Some a) empty_slots) None in
  elem_eqb np np = true ∧ elem_eqb np np = true ∧ elem_eqb np np = true.
Proof.
  intros a np. split; [reflexivity|]. split; [reflexivity|].
  apply (proj2 (proj2 (elem_eqb_equivalence np np np))); reflexivity.
Defined.

(** ** Adding to and deleting from a modifier list *)

Lemma contains_elem_of (lst : list Element) (p : Element) :
  contains lst p = true ↔ p ∈ lst.
Proof.
  unfold contains. rewrite existsb_exists. split.
  - intros (o & Ho & ->%elem_eqb_eq). by apply list_elem_of_In.
  - intros H. exists p. split; [by apply list_elem_of_In|by apply elem_eqb_eq].
Qed.

Lemma contains_not_elem_of (lst : list Element) (p : Element) :
  contains lst p = false ↔ p ∉ lst.
Proof.
  rewrite <- contains_elem_of. by destruct (contains lst p).
Qed.

Lemma add_to_list_cons (lst : list Element) (m : param) (mods : list param) :
  _add_to_list lst (m :: mods)
    = _add_to_list (if contains lst (coerce m) then lst else lst ++ [coerce m])
                   mods.
Proof. unfold _add_to_list. cbn. by destruct (contains lst (coerce m)). Qed.

(** X5: [_add_to_list] keeps a list free of equal items that way, keeps
    what the list held, in place, at its front, and leaves every item it
    was given in the list; it adds nothing else. *)
Theorem add_to_list_no_duplicates (lst : list Element) (mods : list param) :
  NoDup lst →
  NoDup (_add_to_list lst mods) ∧
  lst `prefix_of` _add_to_list lst mods ∧
  (∀ m, m ∈ mods → coerce m ∈ _add_to_list lst mods) ∧
  (∀ e, e ∈ _add_to_list lst mods → e ∈ lst ∨ e ∈ map coerce mods).
Proof.
  revert lst. induction mods as [|m mods IH]; intros lst Hnd.
  - repeat split; try done. intros m Hm. by apply elem_of_nil in Hm. by left.
  - rewrite add_to_list_cons.
    destruct (contains lst (coerce m)) eqn:Hc.
    + destruct (IH lst Hnd) as (H1 & H2 & H3 & H4). repeat split; try done.
      * intros m' [->|Hm]%elem_of_cons; [|by apply H3].
        apply contains_elem_of in Hc. destruct H2 as [k ->].
        apply elem_of_app. by left.
      * intros e [He|He]%H4; [by left|]. right. cbn. by apply list_elem_of_further.
    + assert (NoDup (lst ++ [coerce m])) as Hnd'.
      { apply NoDup_app. repeat split; try done.
        - intros x Hx ->%list_elem_of_singleton.
          by apply contains_not_elem_of in Hc.
        - apply NoDup_singleton. }
      destruct (IH _ Hnd') as (H1 & H2 & H3 & H4). repeat split; try done.
      * etrans; [|exact H2]. by apply prefix_app_r.
      * intros m' [->|Hm]%elem_of_cons; [|by apply H3].
        destruct H2 as [k ->]. rewrite <- app_assoc.
        apply elem_of_app. right. apply list_elem_of_here.
      * intros e [[He|He%list_elem_of_singleton]%elem_of_app|He]%H4.
        -- by left.
        -- right. subst e. cbn. apply list_elem_of_here.
        -- right. cbn. by apply list_elem_of_further.
Qed.

Lemma add_to_list_no_duplicates_witness :
  let lst := [mk_String "very"] in
  let mods := [PStr "big"; PStr "very"; PStr "big"] in
  NoDup lst ∧
  NoDup (_add_to_list lst mods) ∧
  lst `prefix_of` _add_to_list lst mods ∧
  (∀ m, m ∈ mods → coerce m ∈ _add_to_list lst mods) ∧
  (∀ e, e ∈ _add_to_list lst mods → e ∈ lst ∨ e ∈ map coerce mods).
Proof.
  intros lst mods.
  assert (NoDup lst) as H by (apply NoDup_singleton).
  split; [exact H|]. exact (add_to_list_no_duplicates lst mods H).
Defined.

Lemma add_to_list_present (lst : list Element) (mods : list param) :
  (∀ m, m ∈ mods → coerce m ∈ lst) → _add_to_list lst mods = lst.
Proof.
  induction mods as [|m mods IH]; intros H; [done|].
  rewrite add_to_list_cons.
  rewrite (proj2 (contains_elem_of lst (coerce m)))
    by (apply H, list_elem_of_here).
  apply IH. intros m' Hm'. by apply H, list_elem_of_further.
Qed.

Lemma add_to_list_holds (lst : list Element) (mods : list param) :
  ∀ m, m ∈ mods → coerce m ∈ _add_to_list lst mods.
Proof.
  revert lst. induction mods as [|m mods IH]; intros lst m' Hm'.
  - by apply elem_of_nil in Hm'.
  - rewrite add_to_list_cons. apply elem_of_cons in Hm' as [->|Hm']; [|by apply IH].
    assert (coerce m ∈ (if contains lst (coerce m) then lst
                        else lst ++ [coerce m])) as Hin.
    { destruct (contains lst (coerce m)) eqn:Hc.
      - by apply contains_elem_of.
      - apply elem_of_app. right. apply list_elem_of_here. }
    revert Hin. generalize (if contains lst (coerce m) then lst
                            else lst ++ [coerce m]) as acc.
    clear. induction mods as [|m' mods IH]; intros acc Hin; [done|].
    rewrite add_to_list_cons. apply IH.
    destruct (contains acc (coerce m')); [done|]. apply elem_of_app. by left.
Qed.

(** X6: adding the same modifiers a second time changes nothing. *)
Theorem add_to_list_idempotent (lst : list Element) (mods : list param) :
  _add_to_list (_add_to_list lst mods) mods = _add_to_list lst mods.
Proof. apply add_to_list_present, add_to_list_holds. Qed.

Lemma list_remove_last (lst : list Element) (p : Element) :
  p ∉ lst → list_remove (lst ++ [p]) p = lst.
Proof.
  induction lst as [|o lst IH]; cbn; intros H.
  - by rewrite (proj2 (elem_eqb_eq p p)).
  - apply not_elem_of_cons in H as [Hne Hl].
    destruct (elem_eqb o p) eqn:E; [by apply elem_eqb_eq in E|].
    by rewrite IH.
Qed.

Lemma list_remove_NoDup (lst : list Element) (p : Element) :
  NoDup lst → p ∉ list_remove lst p.
Proof.
  induction 1 as [|o lst Ho Hnd IH]; cbn; [apply not_elem_of_nil|].
  destruct (elem_eqb o p) eqn:E.
  - by apply elem_eqb_eq in E as ->.
  - apply not_elem_of_cons. split; [|done].
    intros ->. by rewrite (proj2 (elem_eqb_eq o o)) in E.
Qed.

(** X7: deleting a modifier from a list that did not hold it before it
    was added gives the list back; and once a modifier is deleted from
    a list free of equal items, the list does not hold it; deleting a
    modifier the list does not hold changes nothing. *)
Theorem del_from_list_after_add (lst : list Element) (m : param) :
  (contains lst (coerce m) = false →
   _del_from_list (_add_to_list lst [m]) [m] = lst ∧
   _del_from_list lst [m] = lst) ∧
  (NoDup lst → contains (_del_from_list lst [m]) (coerce m) = false).
Proof.
  split.
  - intros Hc. unfold _del_from_list, _add_to_list.
    cbn [foldl _strings_to_elements map]. rewrite Hc. cbn [negb].
    split; [|done].
    rewrite (proj2 (contains_elem_of (lst ++ [coerce m]) (coerce m)))
      by (apply elem_of_app; right; apply list_elem_of_here).
    apply list_remove_last. by apply contains_not_elem_of.
  - intros Hnd. unfold _del_from_list. cbn [foldl _strings_to_elements map].
    destruct (contains lst (coerce m)) eqn:Hc; [|done].
    apply contains_not_elem_of. by apply list_remove_NoDup.
Qed.

Lemma del_from_list_after_add_witness :
  let lst := [mk_String "very"] in
  let m := PStr "big" in
  (contains lst (coerce m) = false ∧
   _del_from_list (_add_to_list lst [m]) [m] = lst ∧
   _del_from_list lst [m] = lst) ∧
  (NoDup lst ∧ contains (_del_from_list lst [m]) (coerce m) = false).
Proof.
  intros lst m. destruct (del_from_list_after_add lst m) as [H1 H2]. split.
  - split; [reflexivity|]. apply H1. reflexivity.
  - assert (NoDup lst) as H by (apply NoDup_singleton). split; [exact H|].
    apply H2, H.
Defined.

(** ** What a failed [replace] leaves behind *)

Section unchanged_facts.
Variable rep : Element → result (bool * Element).
Variable one : Element.
Variable another : option Element.

Lemma scan_keeps i l s :
  Forall (keeps rep) l → scan rep one i l = Ok s →
  match s with
  | Equal _ l' => l' = l
  | Inside _ => True
  | NotFound l' => l' = l
  end.
Proof.
  intros H. revert i s. induction H as [|o l Ho _ IH]; intros i s; cbn.
  - by intros [= <-].
  - destruct (elem_eqb o one); [by intros [= <-]|].
    destruct (rep o) as [[[] o']|e] eqn:Hr; cbn; try done; [by intros [= <-]|].
    apply Ho in Hr as ->.
    destruct (scan rep one (S i) l) as [s'|e] eqn:Hs; cbn; [|done].
    intros [= <-]. specialize (IH _ _ Hs). destruct s'; cbn; by subst.
Qed.

Lemma replace_slot_keeps o o' :
  OptAll (keeps rep) o → replace_slot rep one another o = Ok (false, o') → o' = o.
Proof.
  destruct o as [c|]; cbn; [|by intros _ [= <-]].
  intros Hc. destruct (elem_eqb c one); [done|].
  destruct (rep c) as [[[] c']|e] eqn:Hr; cbn; try done.
  intros [= <-]. by apply Hc in Hr as ->.
Qed.

Lemma assign_succeeds lst i k r :
  assign another lst i k = Ok r → fst r = true.
Proof.
  unfold assign. destruct another; [|done].
  destruct (setitem lst i e); cbn; [|done]. by intros [= <-].
Qed.

Lemma Phrase_replace_keeps p p' :
  Forall (keeps rep) (front_modifier p) → Forall (keeps rep) (pre_modifier p) →
  OptAll (keeps rep) (head p) → Forall (keeps rep) (complement p) →
  Forall (keeps rep) (post_modifier p) →
  Phrase_replace rep one another p = Ok (false, p') → p' = p.
Proof.
  destruct p as [df fm pm h co po]. cbn. intros Hfm Hpm Hh Hco Hpo.
  destruct (scan rep one 0 fm) as [[i l|l|l]|e] eqn:E1; cbn; try done.
  { by intros ?%assign_succeeds. }
  apply (scan_keeps _ _ _ Hfm) in E1 as ->.
  destruct (scan rep one 0 pm) as [[i l|l|l]|e] eqn:E2; cbn; try done.
  { by intros ?%assign_succeeds. }
  apply (scan_keeps _ _ _ Hpm) in E2 as ->.
  destruct (replace_slot rep one another h) as [[[] h']|e] eqn:E3; cbn;
    try done.
  apply (replace_slot_keeps _ _ Hh) in E3 as ->.
  destruct (scan rep one 0 co) as [[i l|l|l]|e] eqn:E4; cbn; try done.
  { by intros ?%assign_succeeds. }
  apply (scan_keeps _ _ _ Hco) in E4 as ->.
  destruct (scan rep one 0 po) as [[i l|l|l]|e] eqn:E5; cbn; try done.
  { by intros ?%assign_succeeds. }
  apply (scan_keeps _ _ _ Hpo) in E5 as ->.
  by intros [= <-].
Qed.
End unchanged_facts.

(** X8: a call of [replace] that returns [False] has changed nothing in
    the tree, whatever the target and the replacement, the absent one
    included. *)
Theorem replace_false_unchanged (T x : Element) (another : option Element)
    (T' : Element) :
  replace T x another = Ok (false, T') → T' = T.
Proof.
  revert T'.
  induction T as [| | |b p subj vp IHp IHs IHvp|b p spec IHp IHs|k b p IHp
                 |b coords IHc] using Element_nested_ind; intros T';
    cbn [replace].
  1-3: by intros [= <-].
  all: try destruct IHp as (IHfm & IHpm & IHh & IHc & IHpo).
  - destruct (replace_slot _ x another subj) as [[[] subj']|e] eqn:E1; cbn;
      try done.
    apply replace_slot_keeps in E1 as ->; [|done].
    destruct (replace_slot _ x another vp) as [[[] vp']|e] eqn:E2; cbn;
      try done.
    apply replace_slot_keeps in E2 as ->; [|done].
    destruct (Phrase_replace _ x another p) as [[[] p']|e] eqn:E3; cbn;
      try done.
    apply Phrase_replace_keeps in E3 as ->; try done. by intros [= <-].
  - destruct (replace_slot _ x another spec) as [[[] spec']|e] eqn:E1; cbn;
      try done.
    apply replace_slot_keeps in E1 as ->; [|done].
    destruct (Phrase_replace _ x another p) as [[[] p']|e] eqn:E3; cbn;
      try done.
    apply Phrase_replace_keeps in E3 as ->; try done. by intros [= <-].
  - destruct (Phrase_replace _ x another p) as [[[] p']|e] eqn:E3; cbn;
      try done.
    apply Phrase_replace_keeps in E3 as ->; try done. by intros [= <-].
  - unfold CC_replace. destruct (CC_find x 0 coords); cbn.
    + destruct another; cbn; [|done]. by destruct (setitem coords n e).
    + by intros [= <-].
Qed.

Lemma replace_false_unchanged_witness :
  let a := mk_String "a" in
  let T := Clause empty_base empty_slots (Some (mk_String "John"))
             (Some (mk_VP "sleeps" [])) in
  replace T a None = Ok (false, T) ∧ T = T.
Proof.
  intros a T. split; [reflexivity|].
  apply (replace_false_unchanged T a None T). reflexivity.
Defined.

(** ** Replacing among the coordinates of a coordination *)

(** X9: [CC.replace] acts on the first coordinate equal to the target and
    on nothing else: with a replacement it puts the replacement there,
    with the absent one it deletes that coordinate, and it returns [True];
    when no coordinate equals the target it returns [False], whatever the
    coordinates hold below them. *)
Theorem CC_replace_first_equal (b : Base) (l1 : list Element) (c : Element)
    (l2 coords : list Element) (x : Element) (another : option Element) :
  (Forall (λ o, elem_eqb o x = false) l1 → elem_eqb c x = true →
   replace (CC b (l1 ++ c :: l2)) x another
     = Ok (true, CC b (l1 ++ option_list another ++ l2))) ∧
  (Forall (λ o, elem_eqb o x = false) coords →
   replace (CC b coords) x another = Ok (false, CC b coords)).
Proof.
  split.
  - intros Hl1 Hc. cbn [replace]. unfold CC_replace.
    rewrite CC_find_first by done. cbn.
    destruct another as [a|]; cbn.
    + by rewrite setitem_middle.
    + by rewrite delete_middle.
  - intros H. cbn [replace]. unfold CC_replace. by rewrite CC_find_none.
Qed.

Lemma CC_replace_first_equal_witness :
  let a := mk_String "a" in
  let b := mk_String "b" in
  let np := NP empty_base (set_head_slot (Some a) empty_slots) None in
  replace (CC empty_base ([b] ++ a :: [a])) a None
    = Ok (true, CC empty_base ([b] ++ option_list None ++ [a])) ∧
  replace (CC empty_base [np; b]) a (Some b) = Ok (false, CC empty_base [np; b]).
Proof.
  intros a b np. split.
  - apply (proj1 (CC_replace_first_equal empty_base [b] a [a] [] a None)).
    + repeat constructor.
    + reflexivity.
  - apply (proj2 (CC_replace_first_equal empty_base [] a [] [np; b] a (Some b))).
    repeat constructor.
Defined.

(** ** Substituting arguments *)

Lemma find_none_iff {A : Type} (f : A → bool) (l : list A) :
  (∀ a, a ∈ l → f a = false) → List.find f l = None.
Proof.
  induction l as [|a l IH]; cbn; [done|]. intros H.
  rewrite (H a) by apply list_elem_of_here.
  apply IH. intros a' Ha'. by apply H, list_elem_of_further.
Qed.

Lemma replace_argument_absent (T : Element) (arg_id : pyid)
    (repl : option Element) :
  (∀ a, a ∈ arguments T → id (base a) ≠ arg_id) →
  replace_argument T arg_id repl = Ok (false, T).
Proof.
  intros H. unfold replace_argument. rewrite find_none_iff; [done|].
  intros a Ha. apply bool_decide_eq_false. by apply H.
Qed.

(** X10: [replace_argument] with an id that no placeholder among the
    arguments of the tree carries returns [False] and leaves the tree as
    it was. *)
Theorem replace_argument_unknown_id (T : Element) (arg_id : pyid)
    (repl : option Element) :
  (∀ a, a ∈ arguments T → id (base a) ≠ arg_id) →
  replace_argument T arg_id repl = Ok (false, T).
Proof. apply replace_argument_absent. Qed.

Lemma replace_argument_unknown_id_witness :
  let x := PlaceHolder (mkBase (IdStr "x") ∅) None in
  let T := Clause empty_base empty_slots (Some x) (Some (mk_VP "go" [])) in
  replace_argument T (IdStr "y") (Some (mk_String "John")) = Ok (false, T).
Proof.
  intros x T. apply (replace_argument_unknown_id T (IdStr "y")).
  intros a Ha. unfold T, arguments in Ha. cbn in Ha.
  apply list_elem_of_singleton in Ha as ->. discriminate.
Defined.

Lemma constituents_of_placeholder (a : Element) :
  is_placeholder a = true → constituents a = [a].
Proof. by destruct a. Qed.

(** X11: when the first argument of the tree that carries the id is within
    reach of [replace], no clause of the tree has its head slot filled
    and no post-modifier equals that argument, [replace_argument] with a
    replacement returns [True], and the arguments of the tree afterwards
    are those before with the arguments of the replacement in the place
    of one occurrence of that argument. *)
Theorem replace_argument_substitutes (T : Element) (arg_id : pyid)
    (a y : Element) :
  List.find (λ a, bool_decide (id (base a) = arg_id)) (arguments T) = Some a →
  clause_heads_absent T = true → post_clear T a = true → occurs T a = true →
  ∃ T' l1 l2,
    replace_argument T arg_id (Some y) = Ok (true, T') ∧
    arguments T = l1 ++ a :: l2 ∧
    arguments T' = l1 ++ arguments y ++ l2.
Proof.
  intros Hfind Hh Hp Ho. unfold replace_argument. rewrite Hfind.
  destruct (replace_present T a y Hh Hp Ho) as (T' & Hr & A & B & HT & HT').
  apply find_some in Hfind as [Hin _].
  apply list_elem_of_In, list_elem_of_filter in Hin as [Hph _].
  rewrite (constituents_of_placeholder a Hph) in HT.
  exists T', (filter (λ x, is_placeholder x = true) A),
         (filter (λ x, is_placeholder x = true) B).
  split; [done|]. unfold arguments. rewrite HT, HT'.
  rewrite !filter_app. split; [|done].
  by rewrite filter_cons_True.
Qed.

Lemma replace_argument_substitutes_witness :
  let x := PlaceHolder (mkBase (IdStr "x") ∅) None in
  let y := PlaceHolder (mkBase (IdStr "y") ∅) None in
  let T := Clause empty_base empty_slots (Some x) (Some (mk_VP "sees" [PElem y])) in
  ∃ T' l1 l2,
    replace_argument T (IdStr "y") (Some (mk_String "Mary")) = Ok (true, T') ∧
    arguments T = l1 ++ y :: l2 ∧
    arguments T' = l1 ++ arguments (mk_String "Mary") ++ l2.
Proof.
  intros x y T.
  apply (replace_argument_substitutes T (IdStr "y") y (mk_String "Mary"));
    reflexivity.
Defined.

(** X12: [replace_arguments] called with two or more positional arguments
    raises [ValueError] before touching the tree; called with keywords
    only, none of which names a placeholder among the arguments of the
    tree, it leaves the tree as it was. *)
Theorem replace_arguments_edge_cases (T : Element) (args : list posarg)
    (kwargs : list (string * option Element)) :
  (1 < length args → replace_arguments T args kwargs = Failed ValueError) ∧
  ((∀ kv a, kv ∈ kwargs → a ∈ arguments T → id (base a) ≠ IdStr (fst kv)) →
   replace_arguments T [] kwargs = Done T).
Proof.
  split.
  - intros H. unfold replace_arguments.
    rewrite !bool_decide_true by lia. done.
  - unfold replace_arguments. cbn.
    induction kwargs as [|[k v] kwargs IH]; intros H; [done|]. cbn.
    rewrite replace_argument_absent.
    + apply IH. intros kv a Hkv. by apply H, list_elem_of_further.
    + intros a Ha. by apply (H (k, v) a); [apply list_elem_of_here|].
Qed.

Lemma replace_arguments_edge_cases_witness :
  let x := PlaceHolder (mkBase (IdStr "x") ∅) None in
  let T := Clause empty_base empty_slots (Some x) (Some (mk_VP "go" [])) in
  replace_arguments T [ArgDict []; ArgDict []] [] = Failed ValueError ∧
  replace_arguments T [] [("y", Some (mk_String "John"))] = Done T.
Proof.
  intros x T. split.
  - apply (proj1 (replace_arguments_edge_cases T [ArgDict []; ArgDict []] [])).
    cbn. lia.
  - apply (proj2 (replace_arguments_edge_cases T [] [("y", Some (mk_String "John"))])).
    intros kv a Hkv Ha. apply list_elem_of_singleton in Hkv as ->.
    unfold T, arguments in Ha. cbn in Ha.
    apply list_elem_of_singleton in Ha as ->. discriminate.
Defined.

(** ** The renderer only appends *)

Lemma string_app_assoc (s1 s2 s3 : string) :
  (s1 +:+ s2) +:+ s3 = s1 +:+ s2 +:+ s3.
Proof.
  induction s1 as [|c s1 IH]; [done|].
  change (String.String c ((s1 +:+ s2) +:+ s3)
          = String.String c (s1 +:+ s2 +:+ s3)).
  by rewrite IH.
Qed.

Lemma string_app_nil_r (s : string) : s +:+ "" = s.
Proof.
  induction s as [|c s IH]; [done|].
  change (String.String c (s +:+ "") = String.String c s). by rewrite IH.
Qed.

Lemma appends_ret : appends (λ text, Ok text).
Proof. intros text. cbn. by rewrite string_app_nil_r. Qed.

Lemma appends_suffix (s : string) : appends (λ text, Ok (text +:+ s)).
Proof. intros text. done. Qed.

Lemma appends_bind (f g : string → result string) :
  appends f → appends g → appends (λ text, t ← f text; g t).
Proof.
  intros Hf Hg text. rewrite (Hf text).
  destruct (f "") as [s|e]; cbn; [|done].
  rewrite (Hg (text +:+ s)), (Hg s).
  destruct (g "") as [s'|e]; cbn; [|done]. by rewrite string_app_assoc.
Qed.

Lemma appends_raise (f : string → result string) (e : exn) :
  appends f → appends (λ text, _ ← f text; Raise e).
Proof.
  intros Hf text. rewrite (Hf text). by destruct (f "").
Qed.

Section appends_facts.
Variable accept : Element → string → result string.

Lemma accept_all_appends (l : list Element) :
  Forall (λ c, appends (accept c)) l → appends (accept_all accept l).
Proof.
  induction 1 as [|c l Hc _ IH]; cbn [accept_all].
  - apply appends_ret.
  - by apply (appends_bind (accept c) (accept_all accept l)).
Qed.

Lemma accept_opt_appends (o : option Element) :
  OptAll (λ c, appends (accept c)) o → appends (accept_opt accept o).
Proof. destruct o; cbn; [done|]. intros _. apply appends_ret. Qed.

Lemma negation_appends (fs : gmap string string) (f : string → result string) :
  appends f → appends (λ text, f (negation fs text)).
Proof.
  intros Hf text. unfold negation. case_bool_decide; [|apply Hf].
  rewrite (Hf (text +:+ " not")), (Hf ("" +:+ " not")).
  destruct (f "") as [s|e]; cbn; [|done]. by rewrite string_app_assoc.
Qed.

Lemma visit_phrase_appends (fs : gmap string string) (p : Slots Element) :
  SlotsAll (λ c, appends (accept c)) p → appends (visit_phrase accept fs p).
Proof.
  intros (Hfm & Hpm & Hh & Hc & Hpo). unfold visit_phrase.
  apply (negation_appends fs
           (λ text, text ← accept_all accept (front_modifier p) text; _)).
  apply appends_bind; [by apply accept_all_appends|].
  apply appends_bind; [by apply accept_all_appends|].
  apply appends_bind; [by apply accept_opt_appends|].
  destruct (fs !! "COMPLEMENTISER") as [c|].
  - apply (appends_bind (λ text, Ok (text +:+ " " +:+ c))
                        (λ text, text ← accept_all accept (complement p) text; _)).
    + apply (appends_suffix (" " +:+ c)).
    + apply appends_bind; by apply accept_all_appends.
  - apply appends_bind; by apply accept_all_appends.
Qed.

Lemma visit_cc_appends (node : Element) (coords : list Element) :
  Forall (λ c, appends (accept c)) coords →
  appends (visit_cc accept node coords).
Proof.
  intros H. unfold visit_cc.
  destruct coords as [|c0 [|c1 [|c2 coords]]]; cbn [length].
  - rewrite !bool_decide_false by lia. apply appends_ret.
  - rewrite !bool_decide_false by lia. rewrite bool_decide_true by lia.
    by apply Forall_cons in H as [? _].
  - rewrite bool_decide_false by lia. rewrite bool_decide_true by lia.
    apply Forall_cons in H as [H0 [H1 _]%Forall_cons].
    apply (appends_bind (accept c0)); [done|].
    destruct (get_feature "conj" (_features (base node))) as [conj|e]; cbn.
    + intros text. rewrite (H1 (text +:+ " " +:+ conj)), (H1 ("" +:+ " " +:+ conj)).
      destruct (accept c1 "") as [s|e]; cbn; [|done].
      by rewrite !string_app_assoc.
    + done.
  - rewrite bool_decide_true by lia. cbn [accept_but_last].
    rewrite getattr_conj. cbn.
    apply Forall_cons in H as [H0 _]. intros text.
    rewrite (H0 text). by destruct (accept c0 "").
Qed.
End appends_facts.

Lemma accept_only_appends (node : Element) : appends (accept node).
Proof.
  induction node as [b val|b word pos|b value _|b p subj vp IHp IHs IHvp
                    |b p spec IHp IHs|k b p IHp|b coords IHc]
    using Element_nested_ind; intros text; cbn [accept].
  - done.
  - done.
  - destruct (match value with Some v => __str__ v | None => _ end); done.
  - apply (negation_appends (_features b)
             (λ text, text ← accept_opt accept subj text; accept_opt accept vp text)).
    apply appends_bind; by apply accept_opt_appends.
  - apply (appends_bind (accept_opt accept spec)
                        (visit_phrase accept (_features b) p)).
    + by apply accept_opt_appends.
    + by apply visit_phrase_appends.
  - by apply visit_phrase_appends.
  - by apply visit_cc_appends.
Qed.

(** X13: the string renderer only appends: visiting a node with some text
    already rendered fails exactly when visiting it with none does, and
    otherwise gives the text so far followed by what the node renders
    on its own. *)
Theorem accept_appends (node : Element) (text : string) :
  accept node text = (s ← accept node ""; Ok (text +:+ s)).
Proof. apply accept_only_appends. Qed.

(** ** What renders *)

Section str_facts.
Variable str : Element → result string.

Lemma strs_ok (l : list Element) :
  is_ok (strs str l) = forallb (λ o, is_ok (str o)) l.
Proof.
  induction l as [|o l IH]; cbn; [done|].
  destruct (str o); cbn; [|done]. by destruct (strs str l).
Qed.

Lemma opt_str_ok (o : option Element) :
  is_ok (opt_str str o) = opt_forallb (λ o, is_ok (str o)) o.
Proof. by destruct o. Qed.

Lemma Phrase__str__ok (fs : gmap string string) (p : Slots Element) :
  is_ok (Phrase__str__ str fs p) = slots_forallb (λ o, is_ok (str o)) p.
Proof.
  unfold Phrase__str__, slots_forallb.
  rewrite <- !strs_ok, <- opt_str_ok.
  destruct (strs str (front_modifier p)); cbn; [|done].
  destruct (strs str (pre_modifier p)); cbn; [|done].
  destruct (opt_str str (head p)); cbn; [|done].
  destruct (strs str (complement p)); cbn; [|done].
  by destruct (strs str (post_modifier p)).
Qed.
End str_facts.

Lemma forallb_ext_Forall {A : Type} (f g : A → bool) (l : list A) :
  Forall (λ o, f o = g o) l → forallb f l = forallb g l.
Proof. induction 1 as [|o l Ho _ IH]; cbn; [done|]. by rewrite Ho, IH. Qed.

Lemma opt_forallb_ext_OptAll {A : Type} (f g : A → bool) (o : option A) :
  OptAll (λ o, f o = g o) o → opt_forallb f o = opt_forallb g o.
Proof. by destruct o. Qed.

Lemma slots_forallb_ext (f g : Element → bool) (p : Slots Element) :
  SlotsAll (λ o, f o = g o) p → slots_forallb f p = slots_forallb g p.
Proof.
  intros (Hfm & Hpm & Hh & Hc & Hpo). unfold slots_forallb.
  by rewrite (forallb_ext_Forall f g _ Hfm), (forallb_ext_Forall f g _ Hpm),
    (opt_forallb_ext_OptAll f g _ Hh), (forallb_ext_Forall f g _ Hc),
    (forallb_ext_Forall f g _ Hpo).
Qed.

Lemma is_ok_str (e : Element) : is_ok (__str__ e) = str_ok e.
Proof.
  induction e as [b val|b word pos|b value IHv|b p subj vp _ IHs IHvp
                 |b p spec IHp IHs|k b p IHp|b coords _]
    using Element_nested_ind; cbn [__str__ str_ok].
  - done.
  - done.
  - by destruct value.
  - rewrite <- (opt_forallb_ext_OptAll _ _ _ IHs),
            <- (opt_forallb_ext_OptAll _ _ _ IHvp).
    destruct subj as [s|], vp as [v|]; cbn;
      repeat match goal with
             | |- context [__str__ ?x] => destruct (__str__ x); cbn
             end; done.
  - rewrite <- (opt_forallb_ext_OptAll _ _ _ IHs),
            <- (slots_forallb_ext _ _ _ IHp),
            <- (Phrase__str__ok __str__ (_features b)).
    destruct spec as [s|]; cbn.
    + destruct (__str__ s); cbn; [|done].
      by destruct (Phrase__str__ __str__ (_features b) p).
    + done.
  - by rewrite <- (slots_forallb_ext _ _ _ IHp),
       <- (Phrase__str__ok __str__ (_features b)).
  - destruct coords as [|c coords]; [done|].
    cbn [CC__str__loop]. by rewrite getattr_conj.
Qed.

Lemma is_ok_true {A : Type} (r : result A) :
  is_ok r = true ↔ ∃ a, r = Ok a.
Proof.
  destruct r as [a|e]; cbn; split; try done.
  - by exists a.
  - by intros [? ?].
Qed.

(** X14: [str] of an element returns a string exactly when what it goes
    through holds no coordination with a coordinate; on a coordination that
    has one it raises, [CC.__str__] reading the attribute [conj] in its
    first round. *)
Theorem str_succeeds_iff (e : Element) :
  (∃ s, __str__ e = Ok s) ↔ str_ok e = true.
Proof. by rewrite <- is_ok_true, is_ok_str. Qed.

Lemma accept_ok_text (node : Element) (text : string) :
  is_ok (accept node text) = is_ok (accept node "").
Proof. rewrite (accept_only_appends node text). by destruct (accept node ""). Qed.

Lemma accept_all_ok (l : list Element) (text : string) :
  is_ok (accept_all accept l text) = forallb (λ c, is_ok (accept c "")) l.
Proof.
  revert text. induction l as [|c l IH]; intros text; cbn; [done|].
  rewrite <- (accept_ok_text c text).
  destruct (accept c text); cbn; [apply IH|done].
Qed.

Lemma accept_opt_ok (o : option Element) (text : string) :
  is_ok (accept_opt accept o text) = opt_forallb (λ c, is_ok (accept c "")) o.
Proof. destruct o as [c|]; cbn; [apply accept_ok_text|done]. Qed.

Lemma visit_phrase_ok (fs : gmap string string) (p : Slots Element)
    (text : string) :
  is_ok (visit_phrase accept fs p text)
  = slots_forallb (λ c, is_ok (accept c "")) p.
Proof.
  unfold visit_phrase, slots_forallb.
  rewrite <- (accept_all_ok (front_modifier p) (negation fs text)).
  destruct (accept_all accept (front_modifier p) _) as [t1|]; cbn; [|done].
  rewrite <- (accept_all_ok (pre_modifier p) t1).
  destruct (accept_all accept (pre_modifier p) _) as [t2|]; cbn; [|done].
  rewrite <- (accept_opt_ok (head p) t2).
  destruct (accept_opt accept (head p) _) as [t3|]; cbn; [|done].
  set (t4 := match fs !! "COMPLEMENTISER" with Some c => _ | None => _ end).
  rewrite <- (accept_all_ok (complement p) t4).
  destruct (accept_all accept (complement p) _) as [t5|]; cbn; [|done].
  by rewrite accept_all_ok.
Qed.

Lemma is_ok_get_feature (k : string) (fs : gmap string string) :
  is_ok (get_feature k fs) = has_feature k fs.
Proof. unfold get_feature, has_feature. by destruct (fs !! k). Qed.

Lemma visit_cc_ok (b : Base) (coords : list Element) (text : string) :
  is_ok (visit_cc accept (CC b coords) coords text)
  = match coords with
    | [] => true
    | [c0] => is_ok (accept c0 "")
    | [c0; c1] =>
        is_ok (accept c0 "") && has_feature "conj" (_features b)
        && is_ok (accept c1 "")
    | _ => false
    end.
Proof.
  destruct coords as [|c0 [|c1 [|c2 l]]].
  - done.
  - unfold visit_cc. rewrite !bool_decide_false by (cbn; lia).
    rewrite bool_decide_true by (cbn; lia). apply accept_ok_text.
  - unfold visit_cc. rewrite bool_decide_false by (cbn; lia).
    rewrite bool_decide_true by (cbn; lia). cbn [base].
    rewrite <- (accept_ok_text c0 text).
    destruct (accept c0 text) as [t|]; cbn; [|done].
    rewrite <- is_ok_get_feature.
    destruct (get_feature "conj" (_features b)) as [conj|]; cbn; [|done].
    apply accept_ok_text.
  - destruct (accept_cc_three_or_more b c0 c1 c2 l text) as [x Hx].
    cbn [accept] in Hx. by rewrite Hx.
Qed.

Lemma is_ok_accept (e : Element) : is_ok (accept e "") = renderable e.
Proof.
  induction e as [b val|b word pos|b value _|b p subj vp _ IHs IHvp
                 |b p spec IHp IHs|k b p IHp|b coords IHc]
    using Element_nested_ind; cbn [accept renderable].
  - done.
  - done.
  - destruct value as [v|]; [|done].
    cbn [opt_forallb]. rewrite <- is_ok_str. by destruct (__str__ v).
  - rewrite <- (opt_forallb_ext_OptAll _ _ _ IHs),
            <- (opt_forallb_ext_OptAll _ _ _ IHvp).
    rewrite <- (accept_opt_ok subj (negation (_features b) "")).
    destruct (accept_opt accept subj _) as [t|]; cbn; [|done].
    apply accept_opt_ok.
  - rewrite <- (opt_forallb_ext_OptAll _ _ _ IHs),
            <- (slots_forallb_ext _ _ _ IHp).
    rewrite <- (accept_opt_ok spec "").
    destruct (accept_opt accept spec _) as [t|]; cbn; [|done].
    apply visit_phrase_ok.
  - rewrite <- (slots_forallb_ext _ _ _ IHp). apply visit_phrase_ok.
  - rewrite visit_cc_ok.
    destruct coords as [|c0 [|c1 [|c2 l]]]; [done| | |done].
    + by inversion_clear IHc.
    + inversion_clear IHc as [|? ? H0 H1]. inversion_clear H1 as [|? ? H1' _].
      by rewrite H0, H1'.
Qed.

(** X15: the string renderer returns a text for a tree exactly when what it
    visits holds no coordination of three or more coordinates, no
    coordination of two that lacks the feature [conj], and no placeholder
    bound to a value [str] fails on. *)
Theorem render_succeeds_iff (e : Element) :
  (∃ s, render e = Ok s) ↔ renderable e = true.
Proof.
  rewrite <- is_ok_accept, is_ok_true. unfold render.
  destruct (accept e "") as [t|x]; cbn; split.
  - intros _. by exists t.
  - intros _. by exists (strip t).
  - by intros [? ?].
  - by intros [? ?].
Qed.

(** ** The iterators *)

Lemma sentence_iterator_last (sent : Element) :
  is_clause sent = false →
  ∃ l, sentence_iterator sent = l ++ [Some sent].
Proof.
  destruct sent as [| | |b p subj vp|b p spec|k b p|b coords]; cbn; try done.
  all: intros _; unfold Phrase_iter.
  - by exists [].
  - by exists [].
  - by exists [].
  - eexists. by rewrite !app_assoc.
  - eexists. by rewrite !app_assoc.
  - by eexists.
Qed.

(** X16: on a clause whose verb phrase is no clause, the absent one
    included, [sentence_iterator] ends with the verb phrase yielded twice in
    a row and then the subject: it goes through the verb phrase, which
    yields itself last, and then yields the verb phrase and the subject. *)
Theorem sentence_iterator_yields_vp_twice (b : Base) (p : Slots Element)
    (subj vp : option Element) :
  (∀ e, vp = Some e → is_clause e = false) →
  ∃ l, sentence_iterator (Clause b p subj vp) = l ++ [vp; vp; subj].
Proof.
  intros H. cbn [sentence_iterator]. destruct vp as [e|]; cbn [iter_opt].
  - destruct (sentence_iterator_last e (H e eq_refl)) as [l ->].
    exists l. by rewrite <- app_assoc.
  - by exists [].
Qed.

Lemma sentence_iterator_yields_vp_twice_witness :
  let vp := mk_VP "go" [PStr "home"] in
  let T := Clause empty_base
             (add_front_modifier [PStr "then"] empty_slots)
             (Some (mk_String "we")) (Some vp) in
  ∃ l, sentence_iterator T = l ++ [Some vp; Some vp; Some (mk_String "we")].
Proof.
  intros vp T.
  apply (sentence_iterator_yields_vp_twice empty_base
           (add_front_modifier [PStr "then"] empty_slots)
           (Some (mk_String "we")) (Some vp)).
  by intros e [= <-].
Defined.


(** ** The module's [replace_element] *)

Section replace_element_facts.
Variable rep : Element → bool * Element.
Variable elt : Element.
Variable replacement : option Element.

Lemma scan_reversed_unchanged (lst lst' : list Element) :
  Forall (unchanged rep) lst →
  scan_reversed rep elt replacement lst = (false, lst') → lst' = lst.
Proof.
  intros H. revert lst'. induction H as [|o lst Ho _ IH]; intros lst'; cbn.
  - by intros [= <-].
  - destruct (scan_reversed rep elt replacement lst) as [[] l]; [done|].
    rewrite (IH l eq_refl).
    destruct (elem_eqb o elt); [done|].
    destruct (rep o) as [[] o'] eqn:Hr; [done|].
    intros [= <-]. by rewrite (Ho _ Hr).
Qed.

Lemma assign_slot_unchanged (o o' : option Element) :
  assign_slot elt replacement o = (false, o') → o' = o.
Proof.
  destruct o as [c|]; cbn; [|by intros [= <-]].
  destruct (elem_eqb c elt); [done|]. by intros [= <-].
Qed.

Lemma search_slot_unchanged (o o' : option Element) :
  OptAll (unchanged rep) o →
  search_slot rep elt replacement o = (false, o') → o' = o.
Proof.
  destruct o as [c|]; cbn; [|by intros _ [= <-]].
  intros Hc. destruct (elem_eqb c elt); [done|].
  destruct (rep c) as [[] c'] eqn:Hr; [done|].
  intros [= <-]. by rewrite (Hc _ Hr).
Qed.

Lemma Phrase_replace_element_unchanged {A : Type} (p : Slots Element)
    (spec : option Element) (np : bool)
    (k : Slots Element → option Element → A) (a : A) :
  SlotsAll (unchanged rep) p →
  Phrase_replace_element rep elt replacement p spec np k = (false, a) →
  a = k p spec.
Proof.
  destruct p as [df fm pm h co po]. intros (Hfm & Hpm & _ & Hco & Hpo).
  cbn in Hfm, Hpm, Hco, Hpo. cbn [Phrase_replace_element].
  destruct (scan_reversed rep elt replacement po) as [[] l] eqn:E1; [done|].
  apply (scan_reversed_unchanged _ _ Hpo) in E1 as ->.
  destruct (scan_reversed rep elt replacement co) as [[] l] eqn:E2; [done|].
  apply (scan_reversed_unchanged _ _ Hco) in E2 as ->.
  destruct (assign_slot elt replacement h) as [[] h'] eqn:E3; [done|].
  apply assign_slot_unchanged in E3 as ->.
  destruct (scan_reversed rep elt replacement pm) as [[] l] eqn:E4; [done|].
  apply (scan_reversed_unchanged _ _ Hpm) in E4 as ->.
  destruct (if np then assign_slot elt replacement spec else (false, spec))
    as [[] spec'] eqn:E5; [done|].
  assert (spec' = spec) as ->.
  { destruct np; [by apply assign_slot_unchanged in E5|by injection E5]. }
  destruct (scan_reversed rep elt replacement fm) as [[] l] eqn:E6; [done|].
  apply (scan_reversed_unchanged _ _ Hfm) in E6 as ->.
  by intros [= <-].
Qed.

Lemma replace_coordinate_unchanged (coords coords' : list Element) :
  replace_coordinate elt replacement coords = (false, coords') →
  coords' = coords.
Proof.
  revert coords'. induction coords as [|o l IH]; intros coords'; cbn.
  - by intros [= <-].
  - destruct (elem_eqb o elt); [done|].
    destruct (replace_coordinate elt replacement l) as [[] l'']; [done|].
    intros [= <-]. by rewrite (IH l'' eq_refl).
Qed.
End replace_element_facts.

Lemma replace_element_unchanged (sent elt : Element)
    (replacement : option Element) :
  unchanged (λ o, replace_element o elt replacement) sent.
Proof.
  induction sent as [| | |b p subj vp IHp IHs IHvp|b p spec IHp IHs|k b p IHp
                    |b coords IHc] using Element_nested_ind; intros sent';
    cbn [replace_element].
  1-3: by destruct (elem_eqb _ elt); intros [= <-].
  - destruct (elem_eqb _ elt); [done|].
    destruct (search_slot _ elt replacement subj) as [[] subj'] eqn:E1; [done|].
    apply (search_slot_unchanged _ _ _ _ _ IHs) in E1 as ->.
    destruct (search_slot _ elt replacement vp) as [[] vp'] eqn:E2; [done|].
    apply (search_slot_unchanged _ _ _ _ _ IHvp) in E2 as ->.
    intros E. by apply (Phrase_replace_element_unchanged _ _ _ _ _ _ _ _ IHp) in E.
  - destruct (elem_eqb _ elt); [done|].
    intros E. by apply (Phrase_replace_element_unchanged _ _ _ _ _ _ _ _ IHp) in E.
  - destruct (elem_eqb _ elt); [done|].
    intros E. by apply (Phrase_replace_element_unchanged _ _ _ _ _ _ _ _ IHp) in E.
  - destruct (elem_eqb _ elt); [done|].
    destruct (replace_coordinate elt replacement coords) as [[] l] eqn:E; [done|].
    apply replace_coordinate_unchanged in E as ->. by intros [= <-].
Qed.

(** X18: a call of the module's [replace_element] that returns [False] has
    changed nothing in the tree, whatever the target and the replacement,
    the absent one included. *)
Theorem replace_element_false_unchanged (sent elt : Element)
    (replacement : option Element) (sent' : Element) :
  replace_element sent elt replacement = (false, sent') → sent' = sent.
Proof. apply replace_element_unchanged. Qed.

Lemma replace_element_false_unchanged_witness :
  let a := mk_String "a" in
  let T := Clause empty_base empty_slots (Some (mk_String "John"))
             (Some (mk_VP "sleeps" [PStr "well"])) in
  replace_element T a None = (false, T) ∧ T = T.
Proof.
  intros a T. split; [reflexivity|].
  apply (replace_element_false_unchanged T a None T). reflexivity.
Defined.

Lemma scan_reversed_none (elt : Element) (replacement : option Element)
    (lst : list Element) :
  Forall (λ o, elem_eqb o elt = false ∧
               fst (replace_element o elt replacement) = false) lst →
  scan_reversed (λ o, replace_element o elt replacement) elt replacement lst
  = (false, lst).
Proof.
  induction 1 as [|o lst [Ho Hr] _ IH]; cbn; [done|].
  rewrite IH, Ho.
  destruct (replace_element o elt replacement) as [r o'] eqn:E.
  cbn in Hr. subst r. by rewrite (replace_element_unchanged _ _ _ _ E).
Qed.

Lemma scan_reversed_last (rep : Element → bool * Element) (elt : Element)
    (replacement : option Element) (l1 : list Element) (c : Element)
    (l2 : list Element) :
  elem_eqb c elt = true →
  scan_reversed rep elt replacement l2 = (false, l2) →
  scan_reversed rep elt replacement (l1 ++ c :: l2)
  = (true, l1 ++ option_list replacement ++ l2).
Proof.
  intros Hc H2. induction l1 as [|o l1 IH]; cbn.
  - by rewrite H2, Hc.
  - by rewrite IH.
Qed.

(** X19: [replace_element] looks at the post-modifiers of a phrase first and
    from the last one down: it acts on the last post-modifier equal to the
    target, when nothing after it equals or holds the target, whatever
    comes before it; with a replacement it puts the replacement there,
    with the absent one it deletes the post-modifier, and it returns
    [True]. *)
Theorem replace_element_last_post_modifier (k : PhraseKind) (b : Base)
    (p : Slots Element) (spec : option Element) (l1 : list Element)
    (c : Element) (l2 : list Element) (elt : Element)
    (replacement : option Element) :
  post_modifier p = l1 ++ c :: l2 →
  elem_eqb c elt = true →
  Forall (λ o, elem_eqb o elt = false ∧
               fst (replace_element o elt replacement) = false) l2 →
  let p' := set_post_modifier (l1 ++ option_list replacement ++ l2) p in
  (elem_eqb (Phrase k b p) elt = false →
   replace_element (Phrase k b p) elt replacement = (true, Phrase k b p')) ∧
  (elem_eqb (NP b p spec) elt = false →
   replace_element (NP b p spec) elt replacement = (true, NP b p' spec)).
Proof.
  intros Hpo Hc H2 p'. subst p'.
  destruct p as [df fm pm h co po]. cbn in Hpo. subst po.
  split; intros Hne; cbn [replace_element]; rewrite Hne;
    cbn [Phrase_replace_element];
    rewrite (scan_reversed_last _ elt replacement l1 c l2 Hc
               (scan_reversed_none elt replacement l2 H2));
    reflexivity.
Qed.

Lemma replace_element_last_post_modifier_witness :
  let now := mk_String "now" in
  let p := set_post_modifiers [PStr "now"; PStr "then"; PStr "now"; PStr "here"]
             (set_head_slot (Some (mk_String "go")) empty_slots) in
  replace_element (Phrase VP empty_base p) now None
  = (true, Phrase VP empty_base
             (set_post_modifier [now; mk_String "then"; mk_String "here"] p)).
Proof.
  intros now p.
  assert (Forall (λ o, elem_eqb o now = false ∧
                       fst (replace_element o now None) = false)
                 [mk_String "here"]) as H
    by (repeat constructor).
  apply (proj1 (replace_element_last_post_modifier VP empty_base p None
                  [now; mk_String "then"] now [mk_String "here"] now None
                  eq_refl eq_refl H)).
  reflexivity.
Defined.

(** ** Adding modifiers to a phrase and removing them *)

Lemma del_from_list_cons (lst : list Element) (m : param) (mods : list param) :
  _del_from_list lst (m :: mods)
    = _del_from_list (if contains lst (coerce m) then list_remove lst (coerce m)
                      else lst) mods.
Proof. reflexivity. Qed.

Lemma list_remove_app_r (lst D : list Element) (p : Element) :
  p ∉ lst → list_remove (lst ++ D) p = lst ++ list_remove D p.
Proof.
  induction lst as [|o lst IH]; cbn; intros H; [done|].
  apply not_elem_of_cons in H as [Hne Hl].
  destruct (elem_eqb o p) eqn:E; [by apply elem_eqb_eq in E|].
  by rewrite IH.
Qed.

Lemma list_remove_elem_of (D : list Element) (p d : Element) :
  d ∈ list_remove D p → d ∈ D.
Proof.
  induction D as [|o D IH]; cbn; [done|].
  destruct (elem_eqb o p).
  - apply list_elem_of_further.
  - intros [->|H]%elem_of_cons; [apply list_elem_of_here|].
    by apply list_elem_of_further, IH.
Qed.

Lemma list_remove_keeps_NoDup (D : list Element) (p : Element) :
  NoDup D → NoDup (list_remove D p).
Proof.
  induction 1 as [|o D Ho Hnd IH]; cbn; [constructor|].
  destruct (elem_eqb o p); [done|].
  constructor; [|done]. intros H. by apply Ho, (list_remove_elem_of D p).
Qed.

(** What [_add_to_list] appends: items given and not held, each once. *)
Lemma add_to_list_appends (lst : list Element) (mods : list param) :
  ∃ D, _add_to_list lst mods = lst ++ D ∧ NoDup D ∧
       ∀ d, d ∈ D → d ∈ map coerce mods ∧ d ∉ lst.
Proof.
  revert lst. induction mods as [|m mods IH]; intros lst.
  - exists []. rewrite app_nil_r. split; [done|]. split; [constructor|].
    by intros d ?%elem_of_nil.
  - rewrite add_to_list_cons. destruct (contains lst (coerce m)) eqn:Hc.
    + destruct (IH lst) as (D & -> & Hnd & HD). exists D.
      split; [done|]. split; [done|]. intros d [Hd Hl]%HD. split; [|done].
      by apply list_elem_of_further.
    + destruct (IH (lst ++ [coerce m])) as (D & -> & Hnd & HD).
      exists (coerce m :: D). rewrite <- app_assoc. split; [done|]. split.
      * constructor; [|done]. intros H. apply HD in H as [_ H].
        apply H, elem_of_app. right. apply list_elem_of_here.
      * intros d [->|H]%elem_of_cons.
        { split; [apply list_elem_of_here|by apply contains_not_elem_of]. }
        apply HD in H as [Hd Hl]. split; [by apply list_elem_of_further|].
        intros H'. apply Hl, elem_of_app. by left.
Qed.

Lemma del_from_list_appended (mods : list param) (lst D : list Element) :
  NoDup D → (∀ m, m ∈ mods → coerce m ∉ lst) →
  (∀ d, d ∈ D → d ∈ map coerce mods) →
  _del_from_list (lst ++ D) mods = lst.
Proof.
  revert D. induction mods as [|m mods IH]; intros D Hnd Hm HD.
  - destruct D as [|d D]; [by rewrite app_nil_r|].
    by destruct (proj1 (elem_of_nil d) (HD d (list_elem_of_here _ _))).
  - rewrite del_from_list_cons.
    assert (coerce m ∉ lst) as Hl by (apply Hm, list_elem_of_here).
    assert (∀ m', m' ∈ mods → coerce m' ∉ lst) as Hm'
      by (intros m' ?; by apply Hm, list_elem_of_further).
    destruct (contains (lst ++ D) (coerce m)) eqn:Hc.
    + rewrite list_remove_app_r by done.
      apply IH; [by apply list_remove_keeps_NoDup|done|].
      intros d Hd. assert (d ≠ coerce m) as Hne.
      { intros ->. by apply (list_remove_NoDup D (coerce m)). }
      apply list_remove_elem_of, HD in Hd. cbn in Hd.
      by apply elem_of_cons in Hd as [?|?].
    + apply IH; [done..|].
      intros d Hd. assert (d ≠ coerce m) as Hne.
      { intros ->. apply contains_not_elem_of in Hc. apply Hc, elem_of_app.
        by right. }
      apply HD in Hd. cbn in Hd. by apply elem_of_cons in Hd as [?|?].
Qed.

Lemma del_after_add (lst : list Element) (mods : list param) :
  (∀ m, m ∈ mods → contains lst (coerce m) = false) →
  _del_from_list (_add_to_list lst mods) mods = lst.
Proof.
  intros H. destruct (add_to_list_appends lst mods) as (D & -> & Hnd & HD).
  apply del_from_list_appended; [done| |].
  - intros m Hm. by apply contains_not_elem_of, H.
  - intros d Hd. by apply HD.
Qed.

(** X20: removing from a phrase the modifiers just added to it gives the
    phrase back, when it held none of them before; this is so for the
    front-modifiers, the pre-modifiers, the complements and the
    post-modifiers, and also when a modifier is given more than once. *)
Theorem del_after_add_modifiers (p : Slots Element) (mods : list param) :
  (∀ m, m ∈ mods → contains (front_modifier p) (coerce m) = false) →
  (∀ m, m ∈ mods → contains (pre_modifier p) (coerce m) = false) →
  (∀ m, m ∈ mods → contains (complement p) (coerce m) = false) →
  (∀ m, m ∈ mods → contains (post_modifier p) (coerce m) = false) →
  del_front_modifier mods (add_front_modifier mods p) = p ∧
  del_pre_modifier mods (add_pre_modifier mods p) = p ∧
  del_complement mods (add_complement mods p) = p ∧
  del_post_modifier mods (add_post_modifier mods p) = p.
Proof.
  intros Hfm Hpm Hco Hpo. destruct p as [df fm pm h co po].
  unfold del_front_modifier, del_pre_modifier, del_complement,
    del_post_modifier, add_front_modifier, add_pre_modifier, add_complement,
    add_post_modifier, set_front_modifier, set_pre_modifier, set_complement,
    set_post_modifier.
  cbn in *. by rewrite !del_after_add.
Qed.

Lemma del_after_add_modifiers_witness :
  let p := add_complement [PStr "home"]
             (set_head_slot (Some (mk_String "go")) empty_slots) in
  let mods := [PStr "now"; PElem (mk_String "then"); PStr "now"] in
  del_front_modifier mods (add_front_modifier mods p) = p ∧
  del_pre_modifier mods (add_pre_modifier mods p) = p ∧
  del_complement mods (add_complement mods p) = p ∧
  del_post_modifier mods (add_post_modifier mods p) = p.
Proof.
  intros p mods.
  assert (∀ l, (∀ m, m ∈ mods → contains l (coerce m) = false) ↔
               Forall (λ m, contains l (coerce m) = false) mods) as H
    by (intros l; symmetry; apply Forall_forall).
  apply (del_after_add_modifiers p mods); apply H; repeat constructor.
Defined.

(** ** Decoding *)

Lemma class_tag_found (c : class) :
  List.find (is_class (PyStr (class_tag c))) known_classes = Some c.
Proof. by destruct c. Qed.

Lemma class_not_found (cls : pyval) :
  (∀ c, cls ≠ PyStr (class_tag c)) →
  List.find (is_class cls) known_classes = None.
Proof.
  intros H. destruct (List.find (is_class cls) known_classes) as [c|] eqn:E;
    [|done].
  apply find_some in E as [_ E]. destruct cls as [| |s| | | |]; try done.
  cbn in E. apply String.eqb_eq in E. by destruct (H c); subst.
Qed.

(** X21: [from_json] hands back the dict it is given when the dict has no
    key [__class__] or the value there is not the name of one of the
    classes it knows; under a class it knows it raises [KeyError] when the
    key [__value__] is missing and [TypeError] when the value there is
    not a dict; and a dict there it takes for the attributes of the
    instance unread, so that it never raises on one. *)
Theorem from_json_edge_cases (json_object : list (string * pyval))
    (c : class) (v : pyval) (d : list (string * pyval)) :
  ((∀ c, assoc "__class__" json_object ≠ Some (PyStr (class_tag c))) →
   from_json json_object = Ok (PyDict json_object)) ∧
  (assoc "__class__" json_object = Some (PyStr (class_tag c)) →
   assoc "__value__" json_object = None →
   from_json json_object = Raise KeyError) ∧
  (assoc "__class__" json_object = Some (PyStr (class_tag c)) →
   assoc "__value__" json_object = Some v → (∀ d, v ≠ PyDict d) →
   from_json json_object = Raise TypeError) ∧
  (assoc "__class__" json_object = Some (PyStr (class_tag c)) →
   assoc "__value__" json_object = Some (PyDict d) →
   from_json json_object = Ok (PyObject c d) ∨
   ∃ e, from_json json_object = Ok (PyElem e) ∧ class_of e = c).
Proof.
  unfold from_json. split; [|split; [|split]].
  - intros H. destruct (assoc "__class__" json_object) as [cls|]; [|done].
    rewrite class_not_found; [done|]. intros c' ->. by apply (H c').
  - intros -> ->. by rewrite class_tag_found.
  - intros -> -> Hv. rewrite class_tag_found.
    destruct v as [| | | |d'| |]; try done. by destruct (Hv d').
  - intros -> ->. rewrite class_tag_found. cbn [from_dict].
    destruct (as_element c d) as [e|] eqn:E; [|by left].
    right. exists e. split; [done|].
    destruct c; cbn in E; unfold as_phrase_kind in E;
      repeat match type of E with
             | (match ?x with _ => _ end) = _ => destruct x; cbn in E
             | (_ ≫= _) = _ => apply bind_Some in E as (? & _ & E)
             | (if ?x then _ else _) = _ => destruct x
             end; try done; by injection E as <-.
Qed.

Lemma from_json_edge_cases_witness :
  from_json [("conj", PyStr "and")] = Ok (PyDict [("conj", PyStr "and")]) ∧
  from_json [("__class__", PyStr (class_tag CString))] = Raise KeyError ∧
  from_json [("__class__", PyStr (class_tag CString)); ("__value__", PyNone)]
  = Raise TypeError ∧
  (from_json [("__class__", PyStr (class_tag CString));
              ("__value__", PyDict [])]
   = Ok (PyObject CString []) ∨
   ∃ e, from_json [("__class__", PyStr (class_tag CString));
                   ("__value__", PyDict [])] = Ok (PyElem e) ∧
        class_of e = CString).
Proof.
  split; [|split; [|split]].
  - apply (proj1 (from_json_edge_cases [("conj", PyStr "and")]
                    CString PyNone [])).
    intros c. cbn. discriminate.
  - apply (proj1 (proj2 (from_json_edge_cases
                    [("__class__", PyStr (class_tag CString))]
                    CString PyNone []))).
    + reflexivity.
    + reflexivity.
  - apply (proj1 (proj2 (proj2 (from_json_edge_cases
                    [("__class__", PyStr (class_tag CString));
                     ("__value__", PyNone)] CString PyNone [])))).
    + reflexivity.
    + reflexivity.
    + discriminate.
  - apply (proj2 (proj2 (proj2 (from_json_edge_cases
                    [("__class__", PyStr (class_tag CString));
                     ("__value__", PyDict [])] CString PyNone [])))).
    + reflexivity.
    + reflexivity.
Defined.

(** X22: the encoding tells trees apart: two different trees, no feature
    map of which has the key [__class__], are written as different
    JSON. *)
Theorem dumps_tells_apart (e1 e2 : Element) :
  no_class_feature e1 = true → no_class_feature e2 = true →
  e1 ≠ e2 → dumps e1 ≠ dumps e2.
Proof.
  intros H1 H2 Hne Heq. apply Hne.
  apply loads_dumps in H1, H2. rewrite Heq in H1. congruence.
Qed.

Lemma dumps_tells_apart_witness :
  dumps (mk_String "the") ≠ dumps (Word empty_base (Some "the") None).
Proof.
  apply (dumps_tells_apart (mk_String "the")
           (Word empty_base (Some "the") None)).
  - reflexivity.
  - reflexivity.
  - discriminate.
Defined.

(** ** The object of a verb phrase *)

(** X23: on a verb phrase without complements [get_object] returns [None],
    and [remove_object] and [set_object(None)] leave the phrase as it was;
    on a verb phrase with a complement all three raise [AttributeError],
    reading the attribute [features] of the first complement. *)
Theorem object_of_verb_phrase (b : Base) (p : Slots Element) :
  (complement p = [] →
   get_object (Phrase VP b p) = Ok None ∧
   remove_object (Phrase VP b p) = Ok (Phrase VP b p) ∧
   set_object None (Phrase VP b p) = Ok (Phrase VP b p)) ∧
  (complement p ≠ [] →
   get_object (Phrase VP b p) = Raise AttributeError ∧
   remove_object (Phrase VP b p) = Raise AttributeError ∧
   set_object None (Phrase VP b p) = Raise AttributeError).
Proof.
  destruct p as [df fm pm h co po]. cbn [complement]. split.
  - intros ->. by repeat split.
  - intros H. destruct co as [|c co]; [done|].
    unfold set_object, remove_object, get_object.
    cbn [complement first_object without_objects].
    rewrite tagged_object_raises. by repeat split.
Qed.

Lemma object_of_verb_phrase_witness :
  let sleep := mk_VP "sleep" [] in
  let put := mk_VP "put" [PStr "the piano"] in
  (get_object sleep = Ok None ∧ remove_object sleep = Ok sleep ∧
   set_object None sleep = Ok sleep) ∧
  (get_object put = Raise AttributeError ∧
   remove_object put = Raise AttributeError ∧
   set_object None put = Raise AttributeError).
Proof.
  intros sleep put. split.
  - apply (proj1 (object_of_verb_phrase empty_base
                    (set_head_slot (Some (mk_String "sleep")) empty_slots))).
    reflexivity.
  - apply (proj2 (object_of_verb_phrase empty_base
                    (add_complement [PStr "the piano"]
                       (set_head_slot (Some (mk_String "put")) empty_slots)))).
    discriminate.
Defined.
